(** * The tracing controller's reconcile pass (controller/main.go)

    A shallow embedding of [TracingConfigReconciler.Reconcile] and of the
    cluster objects it reads and writes, with the properties of the
    reconciliation algorithm: the compiled ConfigMap payload, the
    ConfigMap create-or-update step, the deployment patch loop and the
    status transitions.

    The API server is modelled as a finite store plus a fault oracle that
    may fail any client call; every client call is recorded in a trace, so
    that "no write is attempted" and "written before" are statements about
    the trace of a pass. *)

From Stdlib Require Import ZArith String Ascii List Floats DecimalString DecimalPos.
From stdpp Require Import base gmap list strings fin_maps.

Local Open Scope Z_scope.
Set Warnings "-clear-no-such-hyp".

(** ** Formatting verbs of [fmt.Sprintf] used by the controller *)

Module Fmt.

(** [%d] on an integer. *)
Definition d (n : Z) : string := NilZero.string_of_int (Z.to_int n).

Definition digit (n : Z) : ascii := ascii_of_nat (48 + Z.to_nat n).

Definition two_digits (n : Z) : string :=
  String (digit (n / 10)) (String (digit (n mod 10)) EmptyString).

(** [num / den] rounded to the nearest integer, ties to even, for
    [0 <= num] and [0 < den]: the rounding of strconv's decimal
    conversion. *)
Definition round_half_even (num den : Z) : Z :=
  let q := num / den in
  let r := num mod den in
  if 2 * r <? den then q
  else if den <? 2 * r then q + 1
  else if Z.even q then q else q + 1.

(** The magnitude [m * 2^e] in hundredths, rounded. *)
Definition hundredths (m : positive) (e : Z) : Z :=
  if 0 <=? e then 100 * Z.pos m * 2 ^ e
  else round_half_even (100 * Z.pos m) (2 ^ (- e)).

Definition sign (s : bool) : string := if s then "-" else "".

(** [%.2f] on the exact value of a binary64 number. *)
Definition f2_spec (x : spec_float) : string :=
  match x with
  | S754_nan => "NaN"
  | S754_infinity s => if s then "-Inf" else "+Inf"
  | S754_zero s => sign s +:+ "0.00"
  | S754_finite s m e =>
      let n := hundredths m e in
      sign s +:+ d (n / 100) +:+ "." +:+ two_digits (n mod 100)
  end.

Definition f2 (x : float) : string := f2_spec (Prim2SF x).

End Fmt.

(** ** Errors of the client library *)

(** A Go [error] value as the controller uses it: its text ([%v]) and
    whether [apierrors.IsNotFound] holds of it. *)
Record error := { IsNotFound : bool; Error : string }.

(** [client.IgnoreNotFound]: [nil] on a not-found error. *)
Definition IgnoreNotFound (err : error) : option error :=
  if IsNotFound err then None else Some err.

(** ** The label-selector library (k8s.io/apimachinery)

    The controller only calls [metav1.LabelSelectorAsSelector] and hands
    the result to the client's list call; the library is an interface
    here, so the properties hold for every implementation of it. *)
Class LabelLibrary := {
  metav1_LabelSelector : Type;
  labels_Selector : Type;
  LabelSelectorAsSelector : metav1_LabelSelector -> error + labels_Selector;
  Matches : labels_Selector -> gmap string string -> bool
}.

(** ** Cluster objects *)

Definition Time := Z.

(** [types.NamespacedName] as (namespace, name). *)
Abbreviation NamespacedName := (string * string)%type.

Record TracingConfigSpec `{LabelLibrary} := {
  Enabled : bool;
  SamplingRate : float;
  Endpoint : string;
  ServiceName : string;
  Namespace : string;
  Selector : option metav1_LabelSelector;
  Headers : gmap string string;
  Attributes : gmap string string;
  ExportTimeout : string;
  BatchTimeout : string;
  MaxBatchSize : Z
}.

Record TracingConfigStatus := {
  Phase : string;
  Message : string;
  AppliedAt : option Time;
  TargetPods : list string
}.

(** The custom resource as the reconciler holds it after [r.Get]. *)
Record TracingConfig `{LabelLibrary} := {
  ObjectNamespace : string;
  ObjectName : string;
  Spec : TracingConfigSpec;
  Status : TracingConfigStatus
}.

Record ConfigMapEnvSource := { cmName : string; cmOptional : option bool }.
Record SecretEnvSource := { secName : string; secOptional : option bool }.

Record EnvFromSource := {
  Prefix : string;
  ConfigMapRef : option ConfigMapEnvSource;
  SecretRef : option SecretEnvSource
}.

Record Container := { containerName : string; EnvFrom : list EnvFromSource }.

(** A deployment as the store keeps it under its (namespace, name) key:
    its own labels and the containers of its pod template. *)
Record DeploymentObj := {
  deploymentLabels : gmap string string;
  Containers : list Container
}.

(** A deployment as a list call returns it. *)
Record Deployment := {
  deploymentKey : NamespacedName;
  deploymentObj : DeploymentObj
}.

(** ** The compiled ConfigMap payload (main.go, lines 203-231) *)

Section Compiler.
Context `{LabelLibrary}.

Definition configMapName (name : string) : string := name +:+ "-tracing-config".

Definition attributePrefix : string := "OTEL_RESOURCE_ATTRIBUTES_".

(** The map literal of the four fixed keys. *)
Definition requiredData (spec : TracingConfigSpec) : gmap string string :=
  <["OTEL_TRACES_SAMPLER_ARG" := Fmt.f2 (SamplingRate spec)]>
  (<["OTEL_TRACES_SAMPLER" := "traceidratio"]>
  (<["OTEL_SERVICE_NAME" := ServiceName spec]>
  (<["OTEL_EXPORTER_OTLP_ENDPOINT" := Endpoint spec]> ∅))).

(** The three guarded assignments. *)
Definition optionalData (spec : TracingConfigSpec) (data : gmap string string)
  : gmap string string :=
  let data :=
    if String.eqb (ExportTimeout spec) "" then data
    else <["OTEL_EXPORTER_OTLP_TIMEOUT" := ExportTimeout spec]> data in
  let data :=
    if String.eqb (BatchTimeout spec) "" then data
    else <["OTEL_BSP_SCHEDULE_DELAY" := BatchTimeout spec]> data in
  if 0 <? MaxBatchSize spec
  then <["OTEL_BSP_MAX_EXPORT_BATCH_SIZE" := Fmt.d (MaxBatchSize spec)]> data
  else data.

(** The [range] loop over the attribute map, along the order [entries]
    in which the runtime happens to enumerate it. *)
Definition attributeData (entries : list (string * string))
    (data : gmap string string) : gmap string string :=
  foldl (λ data kv, <[attributePrefix +:+ kv.1 := kv.2]> data) data entries.

Definition configMapDataIn (entries : list (string * string))
    (spec : TracingConfigSpec) : gmap string string :=
  attributeData entries (optionalData spec (requiredData spec)).

(** Go leaves the order of [range] over a map unspecified: [entries] is
    an enumeration of the map when it lists each entry once. *)
Definition rangeOrder (m : gmap string string) (entries : list (string * string))
  : Prop := entries ≡ₚ map_to_list m.

(** The payload along the store's own enumeration of the attributes. *)
Definition configMapData (spec : TracingConfigSpec) : gmap string string :=
  configMapDataIn (map_to_list (Attributes spec)) spec.

(** A spec with other values in the two fields [Enabled] and [Headers]. *)
Definition withFlags (enabled : bool) (headers : gmap string string)
    (spec : TracingConfigSpec) : TracingConfigSpec :=
  {| Enabled := enabled;
     SamplingRate := SamplingRate spec;
     Endpoint := Endpoint spec;
     ServiceName := ServiceName spec;
     Namespace := Namespace spec;
     Selector := Selector spec;
     Headers := headers;
     Attributes := Attributes spec;
     ExportTimeout := ExportTimeout spec;
     BatchTimeout := BatchTimeout spec;
     MaxBatchSize := MaxBatchSize spec |}.

Definition withFlagsOf (enabled : bool) (headers : gmap string string)
    (tc : TracingConfig) : TracingConfig :=
  {| ObjectNamespace := ObjectNamespace tc; ObjectName := ObjectName tc;
     Spec := withFlags enabled headers (Spec tc); Status := Status tc |}.

End Compiler.

(** ** A state monad for the client calls *)

Definition StateM (S A : Type) : Type := S -> A * S.

Definition ret {S A : Type} (a : A) : StateM S A := λ s, (a, s).

Definition bind {S A B : Type} (m : StateM S A) (k : A -> StateM S B) : StateM S B :=
  λ s, k (m s).1 (m s).2.


Notation "x <- m ;; k" := (bind m (λ x, k))
  (at level 20, m at level 99, k at level 200).

(** ** The API server behind [client.Client] *)

Section Controller.
Context `{LabelLibrary}.

(** The list options the reconciler builds: [client.InNamespace] and,
    when the spec has a selector, [client.MatchingLabelsSelector]. *)
Record ListOptions := {
  InNamespace : string;
  MatchingLabelsSelector : option labels_Selector
}.

(** The stored objects, each kind under its (namespace, name) key. For a
    pod only the labels matter to the reconciler. *)
Record Cluster := {
  tracingConfigs : gmap NamespacedName (TracingConfigSpec * TracingConfigStatus);
  configMaps : gmap NamespacedName (gmap string string);
  pods : gmap NamespacedName (gmap string string);
  deployments : gmap NamespacedName DeploymentObj
}.

(** The client calls [Reconcile] makes. *)
Inductive Call :=
| GetTracingConfig (key : NamespacedName)
| UpdateStatus (key : NamespacedName) (status : TracingConfigStatus)
| ListPods (opts : ListOptions)
| GetConfigMap (key : NamespacedName)
| CreateConfigMap (key : NamespacedName) (data : gmap string string)
| UpdateConfigMap (key : NamespacedName) (data : gmap string string)
| ListDeployments (opts : ListOptions)
| UpdateDeployment (deployment : Deployment).

(** A call and the error it returned, if any. *)
Record Event := { call : Call; failure : option error }.

(** The state a pass runs in: the cluster and the calls made so far, in
    the order they were made. *)
Record State := { cluster : Cluster; trace : list Event }.

Definition M := StateM State.

(** Transport and storage failures: the oracle sees the calls made so far
    in the pass and the call being made, and may fail it. *)
Variable fault : list Event -> Call -> option error.

Definition notFound (kind : string) (key : NamespacedName) : error :=
  {| IsNotFound := true; Error := kind +:+ " " +:+ key.2 +:+ " not found" |}.

Definition alreadyExists (kind : string) (key : NamespacedName) : error :=
  {| IsNotFound := false; Error := kind +:+ " " +:+ key.2 +:+ " already exists" |}.

Definition errorOf {A : Type} (r : error + A) : option error :=
  match r with inl err => Some err | inr _ => None end.

(** One client call: failed by the oracle without touching the store, or
    served by the store; recorded either way. *)
Definition invoke {A : Type} (c : Call)
    (serve : Cluster -> (error + A) * Cluster) : M (error + A) :=
  λ s,
    match fault (trace s) c with
    | Some err =>
        (inl err,
         {| cluster := cluster s;
            trace := trace s ++ [{| call := c; failure := Some err |}] |})
    | None =>
        let r := serve (cluster s) in
        (r.1,
         {| cluster := r.2;
            trace := trace s ++ [{| call := c; failure := errorOf r.1 |}] |})
    end.

Definition setTracingConfigs m (cl : Cluster) : Cluster :=
  {| tracingConfigs := m; configMaps := configMaps cl;
     pods := pods cl; deployments := deployments cl |}.

Definition setConfigMaps m (cl : Cluster) : Cluster :=
  {| tracingConfigs := tracingConfigs cl; configMaps := m;
     pods := pods cl; deployments := deployments cl |}.

Definition setDeployments m (cl : Cluster) : Cluster :=
  {| tracingConfigs := tracingConfigs cl; configMaps := configMaps cl;
     pods := pods cl; deployments := m |}.

(** [r.Get(ctx, req.NamespacedName, &tracingConfig)] *)
Definition Get_TracingConfig (key : NamespacedName) : M (error + TracingConfig) :=
  invoke (GetTracingConfig key) (λ cl,
    match tracingConfigs cl !! key with
    | Some obj =>
        (inr {| ObjectNamespace := key.1; ObjectName := key.2;
                Spec := obj.1; Status := obj.2 |}, cl)
    | None => (inl (notFound "tracingconfigs" key), cl)
    end).

(** [r.Status().Update(ctx, &tracingConfig)]: only the status is stored. *)
Definition Status_Update (tc : TracingConfig) : M (error + unit) :=
  let key := (ObjectNamespace tc, ObjectName tc) in
  invoke (UpdateStatus key (Status tc)) (λ cl,
    match tracingConfigs cl !! key with
    | Some obj =>
        (inr tt, setTracingConfigs (<[key := (obj.1, Status tc)]> (tracingConfigs cl)) cl)
    | None => (inl (notFound "tracingconfigs" key), cl)
    end).

(** Whether a stored object is selected by the list options. An empty
    namespace lists across namespaces. *)
Definition selects (opts : ListOptions) (key : NamespacedName)
    (labels : gmap string string) : bool :=
  (String.eqb (InNamespace opts) "" || String.eqb key.1 (InNamespace opts))
  && match MatchingLabelsSelector opts with
     | Some selector => Matches selector labels
     | None => true
     end.

(** [r.List(ctx, &pods, listOpts...)]: the names of the selected pods. *)
Definition List_Pods (opts : ListOptions) : M (error + list string) :=
  invoke (ListPods opts) (λ cl,
    (inr (map (λ kv, kv.1.2)
            (List.filter (λ kv, selects opts kv.1 kv.2) (map_to_list (pods cl)))),
     cl)).

(** [r.Get(ctx, types.NamespacedName{...}, existingConfigMap)] *)
Definition Get_ConfigMap (key : NamespacedName) : M (error + gmap string string) :=
  invoke (GetConfigMap key) (λ cl,
    match configMaps cl !! key with
    | Some data => (inr data, cl)
    | None => (inl (notFound "configmaps" key), cl)
    end).

(** [r.Create(ctx, configMap)] *)
Definition Create_ConfigMap (key : NamespacedName) (data : gmap string string)
  : M (error + unit) :=
  invoke (CreateConfigMap key data) (λ cl,
    match configMaps cl !! key with
    | Some _ => (inl (alreadyExists "configmaps" key), cl)
    | None => (inr tt, setConfigMaps (<[key := data]> (configMaps cl)) cl)
    end).

(** [r.Update(ctx, existingConfigMap)] *)
Definition Update_ConfigMap (key : NamespacedName) (data : gmap string string)
  : M (error + unit) :=
  invoke (UpdateConfigMap key data) (λ cl,
    match configMaps cl !! key with
    | Some _ => (inr tt, setConfigMaps (<[key := data]> (configMaps cl)) cl)
    | None => (inl (notFound "configmaps" key), cl)
    end).

(** [r.List(ctx, &deployments, listOpts...)]: the selector is matched
    against each deployment's own labels. *)
Definition List_Deployments (opts : ListOptions) : M (error + list Deployment) :=
  invoke (ListDeployments opts) (λ cl,
    (inr (map (λ kv, {| deploymentKey := kv.1; deploymentObj := kv.2 |})
            (List.filter (λ kv, selects opts kv.1 (deploymentLabels kv.2))
               (map_to_list (deployments cl)))),
     cl)).

(** [r.Update(ctx, &deployment)] *)
Definition Update_Deployment (d : Deployment) : M (error + unit) :=
  invoke (UpdateDeployment d) (λ cl,
    match deployments cl !! deploymentKey d with
    | Some _ =>
        (inr tt,
         setDeployments (<[deploymentKey d := deploymentObj d]> (deployments cl)) cl)
    | None => (inl (notFound "deployments" (deploymentKey d)), cl)
    end).

(** ** The deployment patch loop (main.go, lines 269-302) *)

(** [envFrom.ConfigMapRef != nil && envFrom.ConfigMapRef.Name == configMapName] *)
Definition refersTo (name : string) (envFrom : EnvFromSource) : bool :=
  match ConfigMapRef envFrom with
  | Some ref => String.eqb (cmName ref) name
  | None => false
  end.

(** The search loop that sets [envFromExists]. *)
Definition envFromExists (name : string) (container : Container) : bool :=
  existsb (refersTo name) (EnvFrom container).

(** The reference the reconciler appends. *)
Definition configMapEnvFrom (name : string) : EnvFromSource :=
  {| Prefix := "";
     ConfigMapRef := Some {| cmName := name; cmOptional := None |};
     SecretRef := None |}.

Definition appendEnvFrom (name : string) (container : Container) : Container :=
  {| containerName := containerName container;
     EnvFrom := EnvFrom container ++ [configMapEnvFrom name] |}.

(** The loop over the containers of one deployment: the containers after
    the loop and the [updated] flag. *)
Fixpoint patchContainers (name : string) (containers : list Container)
  : list Container * bool :=
  match containers with
  | [] => ([], false)
  | container :: rest =>
      let r := patchContainers name rest in
      if envFromExists name container then (container :: r.1, r.2)
      else (appendEnvFrom name container :: r.1, true)
  end.

Definition setContainers (containers : list Container) (d : Deployment) : Deployment :=
  {| deploymentKey := deploymentKey d;
     deploymentObj :=
       {| deploymentLabels := deploymentLabels (deploymentObj d);
          Containers := containers |} |}.

(** The body of the loop over [deployments.Items]; a failed update is
    logged and the loop goes on. *)
Definition patchDeployment (name : string) (d : Deployment) : M unit :=
  let r := patchContainers name (Containers (deploymentObj d)) in
  if r.2 then
    _ <- Update_Deployment (setContainers r.1 d) ;;
    ret tt
  else ret tt.

Fixpoint patchDeployments (name : string) (items : list Deployment) : M unit :=
  match items with
  | [] => ret tt
  | d :: rest =>
      _ <- patchDeployment name d ;;
      patchDeployments name rest
  end.

(** Lines 264-303: a failed deployment list is logged and nothing is
    patched. *)
Definition updateDeployments (name : string) (listOpts : ListOptions) : M unit :=
  listed <- List_Deployments listOpts ;;
  match listed with
  | inl _ => ret tt
  | inr items => patchDeployments name items
  end.

(** ** The reconcile pass (main.go, lines 154-325) *)

(** [ctrl.Result]; the delay in nanoseconds as [time.Duration] has it. *)
Record Result := { RequeueAfter : Z }.

Definition Minute : Z := 60 * 1000000000.

Definition setPhase (phase message : string) (tc : TracingConfig) : TracingConfig :=
  {| ObjectNamespace := ObjectNamespace tc;
     ObjectName := ObjectName tc;
     Spec := Spec tc;
     Status :=
       {| Phase := phase; Message := message;
          AppliedAt := AppliedAt (Status tc);
          TargetPods := TargetPods (Status tc) |} |}.

(** The error exit of the selector, pod-list, create and update
    failures: phase [Failed], the message, a status update whose own
    result is dropped, and the error returned. *)
Definition failed (tc : TracingConfig) (what : string) (err : error)
  : M (Result * option error) :=
  _ <- Status_Update (setPhase "Failed" (what +:+ ": " +:+ Error err) tc) ;;
  ret ({| RequeueAfter := 0 |}, Some err).

(** Lines 177-192. *)
Definition listOptions (targetNamespace : string) (spec : TracingConfigSpec)
  : error + ListOptions :=
  match Selector spec with
  | None =>
      inr {| InNamespace := targetNamespace; MatchingLabelsSelector := None |}
  | Some labelSelector =>
      match LabelSelectorAsSelector labelSelector with
      | inl err => inl err
      | inr selector =>
          inr {| InNamespace := targetNamespace;
                 MatchingLabelsSelector := Some selector |}
      end
  end.

Definition appliedMessage (targetPodNames : list string) : string :=
  "Tracing configuration applied to "
  +:+ Fmt.d (Z.of_nat (length targetPodNames)) +:+ " pods".

(** Lines 305-324. *)
Definition applied (now : Time) (tc : TracingConfig) (targetPodNames : list string)
  : M (Result * option error) :=
  updated <- Status_Update
    {| ObjectNamespace := ObjectNamespace tc;
       ObjectName := ObjectName tc;
       Spec := Spec tc;
       Status :=
         {| Phase := "Applied"; Message := appliedMessage targetPodNames;
            AppliedAt := Some now; TargetPods := targetPodNames |} |} ;;
  match updated with
  | inl err => ret ({| RequeueAfter := 0 |}, Some err)
  | inr _ => ret ({| RequeueAfter := 5 * Minute |}, None)
  end.

(** Lines 264-324, reached once the ConfigMap is written. *)
Definition afterConfigMap (now : Time) (tc : TracingConfig) (name : string)
    (listOpts : ListOptions) (targetPodNames : list string)
  : M (Result * option error) :=
  _ <- updateDeployments name listOpts ;;
  applied now tc targetPodNames.

Definition targetNamespaceOf (tc : TracingConfig) : string :=
  if String.eqb (Namespace (Spec tc)) "" then ObjectNamespace tc
  else Namespace (Spec tc).

(** Lines 202-262: create or update the ConfigMap; the pass goes on only
    once it is written. *)
Definition ensureConfigMap (now : Time) (tracingConfig : TracingConfig)
    (targetNamespace : string) (listOpts : ListOptions)
    (targetPodNames : list string) : M (Result * option error) :=
  let name := configMapName (ObjectName tracingConfig) in
  let key := (targetNamespace, name) in
  let data := configMapData (Spec tracingConfig) in
  existing <- Get_ConfigMap key ;;
  match existing with
  | inl err =>
      match IgnoreNotFound err with
      | None =>
          created <- Create_ConfigMap key data ;;
          match created with
          | inl err => failed tracingConfig "Failed to create ConfigMap" err
          | inr _ => afterConfigMap now tracingConfig name listOpts targetPodNames
          end
      | Some _ => ret ({| RequeueAfter := 0 |}, Some err)
      end
  | inr _ =>
      updated <- Update_ConfigMap key data ;;
      match updated with
      | inl err => failed tracingConfig "Failed to update ConfigMap" err
      | inr _ => afterConfigMap now tracingConfig name listOpts targetPodNames
      end
  end.

(** Lines 171-200: the target namespace, the selector and the pods. *)
Definition listTargets (now : Time) (tracingConfig : TracingConfig)
  : M (Result * option error) :=
  let targetNamespace := targetNamespaceOf tracingConfig in
  match listOptions targetNamespace (Spec tracingConfig) with
  | inl err => failed tracingConfig "Invalid label selector" err
  | inr listOpts =>
      pods <- List_Pods listOpts ;;
      match pods with
      | inl err => failed tracingConfig "Failed to list pods" err
      | inr targetPodNames =>
          ensureConfigMap now tracingConfig targetNamespace listOpts targetPodNames
      end
  end.

Definition Reconcile (now : Time) (req : NamespacedName)
  : M (Result * option error) :=
  got <- Get_TracingConfig req ;;
  match got with
  | inl err => ret ({| RequeueAfter := 0 |}, IgnoreNotFound err)
  | inr tracingConfig =>
      let tracingConfig :=
        setPhase "Pending" "Processing tracing configuration" tracingConfig in
      _ <- Status_Update tracingConfig ;;
      listTargets now tracingConfig
  end.

(** One pass from a cluster, with an empty trace. *)
Definition pass (now : Time) (req : NamespacedName) (cl : Cluster)
  : (Result * option error) * State :=
  Reconcile now req {| cluster := cl; trace := [] |}.

End Controller.

Arguments pass {_} fault now req cl.
Arguments Reconcile {_} fault now req _.

(** ** A reference implementation of the label-selector interface

    Used to run the reconciler on concrete clusters. It rejects unknown
    operators and wrong value counts as the library does; the library's
    check of label syntax is left out. *)

Module SimpleLabels.

Inductive Operator := OpIn | OpNotIn | OpExists | OpDoesNotExist.

Record LabelSelectorRequirement := {
  Key : string;
  OperatorName : string;
  Values : list string
}.

Record LabelSelector := {
  MatchLabels : gmap string string;
  MatchExpressions : list LabelSelectorRequirement
}.

Record Requirement := { key : string; operator : Operator; values : list string }.

Definition invalid (msg : string) : error := {| IsNotFound := false; Error := msg |}.

Definition operatorOf (name : string) : option Operator :=
  if String.eqb name "In" then Some OpIn
  else if String.eqb name "NotIn" then Some OpNotIn
  else if String.eqb name "Exists" then Some OpExists
  else if String.eqb name "DoesNotExist" then Some OpDoesNotExist
  else None.

Definition newRequirement (k : string) (op : Operator) (vals : list string)
  : error + Requirement :=
  match op, vals with
  | (OpIn | OpNotIn), [] =>
      inl (invalid "for 'in', 'notin' operators, values set can't be empty")
  | (OpExists | OpDoesNotExist), _ :: _ =>
      inl (invalid "values set must be empty for exists and does not exist")
  | _, _ => inr {| key := k; operator := op; values := vals |}
  end.

Fixpoint expressions (exprs : list LabelSelectorRequirement)
  : error + list Requirement :=
  match exprs with
  | [] => inr []
  | expr :: rest =>
      match operatorOf (OperatorName expr) with
      | None =>
          inl (invalid (OperatorName expr +:+ " is not a valid label selector operator"))
      | Some op =>
          match newRequirement (Key expr) op (Values expr) with
          | inl err => inl err
          | inr r =>
              match expressions rest with
              | inl err => inl err
              | inr rs => inr (r :: rs)
              end
          end
      end
  end.

Definition asSelector (ps : LabelSelector) : error + list Requirement :=
  match expressions (MatchExpressions ps) with
  | inl err => inl err
  | inr rs =>
      inr (map (λ kv, {| key := kv.1; operator := OpIn; values := [kv.2] |})
             (map_to_list (MatchLabels ps)) ++ rs)
  end.

Definition holds (labels : gmap string string) (r : Requirement) : bool :=
  match operator r, labels !! key r with
  | OpIn, Some v => existsb (String.eqb v) (values r)
  | OpIn, None => false
  | OpNotIn, Some v => negb (existsb (String.eqb v) (values r))
  | OpNotIn, None => true
  | OpExists, o => bool_decide (is_Some o)
  | OpDoesNotExist, o => negb (bool_decide (is_Some o))
  end.

Definition matches (selector : list Requirement) (labels : gmap string string) : bool :=
  forallb (holds labels) selector.

#[export] Instance library : LabelLibrary := {|
  metav1_LabelSelector := LabelSelector;
  labels_Selector := list Requirement;
  LabelSelectorAsSelector := asSelector;
  Matches := matches
|}.

End SimpleLabels.

(** ** A concrete cluster

    The scenario of one policy with sampling rate 0.5, one matching
    deployment with a single container and no reference yet, and one
    matching pod. *)

Module Scenario.
Import SimpleLabels.

Definition appLabels : gmap string string := {["app" := "svc-a"]}.

Definition spec : TracingConfigSpec := {|
  Enabled := true;
  SamplingRate := 0.5%float;
  Endpoint := "collector:4317";
  ServiceName := "svc-a";
  Namespace := "";
  Selector := Some {| MatchLabels := appLabels; MatchExpressions := [] |};
  Headers := ∅;
  Attributes := {["team" := "core"; "env" := "dev"]};
  ExportTimeout := "30s";
  BatchTimeout := "";
  MaxBatchSize := 512
|}.

Definition emptyStatus : TracingConfigStatus :=
  {| Phase := ""; Message := ""; AppliedAt := None; TargetPods := [] |}.

Definition req : NamespacedName := ("default", "policy").

Definition plain (name : string) : Container :=
  {| containerName := name; EnvFrom := [] |}.

(** A container that already lists the ConfigMap twice. *)
Definition doubled (name : string) : Container :=
  {| containerName := name;
     EnvFrom := [configMapEnvFrom "policy-tracing-config";
                 configMapEnvFrom "policy-tracing-config"] |}.

Definition workload (containers : list Container) : DeploymentObj :=
  {| deploymentLabels := appLabels; Containers := containers |}.

Definition cluster0 : Cluster := {|
  tracingConfigs := {[req := (spec, emptyStatus)]};
  configMaps := ∅;
  pods := {[("default", "svc-a-1") := appLabels]};
  deployments := {[("default", "svc-a") := workload [plain "main"]]}
|}.

Definition boom : error := {| IsNotFound := false; Error := "connection refused" |}.

(** The read of the ConfigMap fails in transport. *)
Definition failGetConfigMap : list Event -> Call -> option error :=
  λ _ c, match c with GetConfigMap _ => Some boom | _ => None end.

(** The list of the deployments fails in transport. *)
Definition failListDeployments : list Event -> Call -> option error :=
  λ _ c, match c with ListDeployments _ => Some boom | _ => None end.

(** The list options the pass builds for [spec]. *)
Definition listOpts : ListOptions :=
  {| InNamespace := "default";
     MatchingLabelsSelector :=
       Some [{| key := "app"; operator := OpIn; values := ["svc-a"] |}] |}.

(** A policy whose selector names an operator the library does not know. *)
Definition badSpec : TracingConfigSpec := {|
  Enabled := true;
  SamplingRate := 0.5%float;
  Endpoint := "collector:4317";
  ServiceName := "svc-a";
  Namespace := "";
  Selector :=
    Some {| MatchLabels := ∅;
            MatchExpressions :=
              [{| Key := "app"; OperatorName := "Near"; Values := [] |}] |};
  Headers := ∅;
  Attributes := ∅;
  ExportTimeout := "";
  BatchTimeout := "";
  MaxBatchSize := 0
|}.

(** The policy of the scenario, disabled and with a header. *)
Definition disabledSpec : TracingConfigSpec :=
  withFlags false {["authorization" := "token"]} spec.

Definition badCluster : Cluster := {|
  tracingConfigs := {[req := (badSpec, emptyStatus)]};
  configMaps := ∅;
  pods := ∅;
  deployments := {[("default", "svc-a") := workload [plain "main"]]}
|}.

End Scenario.

(** ** Observations on a pass *)

Section Observations.
Context `{LabelLibrary}.

(** A write to the derived ConfigMap. *)
Definition isConfigWrite (c : Call) : bool :=
  match c with
  | CreateConfigMap _ _ | UpdateConfigMap _ _ => true
  | _ => false
  end.

(** A write to a workload. *)
Definition isWorkloadWrite (c : Call) : bool :=
  match c with UpdateDeployment _ => true | _ => false end.

(** A deployment is listed or patched. *)
Definition isWorkloadCall (c : Call) : bool :=
  match c with
  | ListDeployments _ | UpdateDeployment _ => true
  | _ => false
  end.

(** A downstream mutation: a write to the ConfigMap or to a workload. *)
Definition isMutation (c : Call) : bool := isConfigWrite c || isWorkloadWrite c.

Definition calls (tr : list Event) : list Call := map call tr.

(** The phase the store holds for a policy. *)
Definition storedPhase (cl : Cluster) (req : NamespacedName) : option string :=
  (λ obj, Phase obj.2) <$> tracingConfigs cl !! req.

(** The number of references a container holds to the ConfigMap [name]. *)
Definition countRefs (name : string) (container : Container) : nat :=
  length (List.filter (refersTo name) (EnvFrom container)).

(** What the loop body leaves of one container. *)
Definition patchContainer (name : string) (container : Container) : Container :=
  if envFromExists name container then container
  else appendEnvFrom name container.

(** A reference other than the one to the ConfigMap [name]. *)
Definition unrelated (name : string) (envFrom : EnvFromSource) : bool :=
  negb (refersTo name envFrom).

(** The containers of a deployment after one run of the patch loop. *)
Definition patched (name : string) (containers : list Container) : list Container :=
  (patchContainers name containers).1.

(** The no-duplication property in its strongest reading: after [N]
    runs of the patch loop every container holds exactly one reference. *)
Definition exactlyOneReference (name : string) (N : nat)
    (containers : list Container) : Prop :=
  ∀ c, c ∈ Nat.iter N (patched name) containers → countRefs name c = 1%nat.

(** The pods a list call with [opts] returns from a cluster. *)
Definition selectedPods (opts : ListOptions) (cl : Cluster) : list string :=
  map (λ kv, kv.1.2)
    (List.filter (λ kv, selects opts kv.1 kv.2) (map_to_list (pods cl))).

(** The key set of the payload in the words of the specification: the
    four required keys, each optional key when its field is set, and
    one prefixed key per attribute. *)
Definition requiredKeys : gset string :=
  {[ "OTEL_EXPORTER_OTLP_ENDPOINT"; "OTEL_SERVICE_NAME";
     "OTEL_TRACES_SAMPLER"; "OTEL_TRACES_SAMPLER_ARG" ]}.

Definition optionalKeys (spec : TracingConfigSpec) : gset string :=
  (if decide (ExportTimeout spec = "") then ∅ else {[ "OTEL_EXPORTER_OTLP_TIMEOUT" ]})
  ∪ (if decide (BatchTimeout spec = "") then ∅ else {[ "OTEL_BSP_SCHEDULE_DELAY" ]})
  ∪ (if decide (0 < MaxBatchSize spec) then {[ "OTEL_BSP_MAX_EXPORT_BATCH_SIZE" ]} else ∅).

Definition attributeKeys (spec : TracingConfigSpec) : gset string :=
  set_map (String.append attributePrefix) (dom (Attributes spec)).

(** The deployments a list call with [opts] returns from a cluster. *)
Definition listedDeployments (opts : ListOptions) (cl : Cluster) : list Deployment :=
  map (λ kv, {| deploymentKey := kv.1; deploymentObj := kv.2 |})
    (List.filter (λ kv, selects opts kv.1 (deploymentLabels kv.2))
       (map_to_list (deployments cl))).

(** The oracle of a pass in which no client call fails in transport. *)
Definition noFault : list Event -> Call -> option error := λ _ _, None.

(** A stored deployment with the patch loop run over its containers. *)
Definition patchObj (name : string) (obj : DeploymentObj) : DeploymentObj :=
  {| deploymentLabels := deploymentLabels obj;
     Containers := patched name (Containers obj) |}.

(** The stored deployments once every deployment a list call with [opts]
    returns has been patched and written back. *)
Definition patchSelected (name : string) (opts : ListOptions)
    (m : gmap NamespacedName DeploymentObj) : gmap NamespacedName DeploymentObj :=
  map_imap (λ key obj,
              Some (if selects opts key (deploymentLabels obj)
                    then patchObj name obj else obj)) m.

(** The effect on the store of the updates the loop issues for [items],
    when each goes through. *)
Definition applyPatches (name : string) (items : list Deployment)
    (m : gmap NamespacedName DeploymentObj) : gmap NamespacedName DeploymentObj :=
  foldl (λ m d,
           if (patchContainers name (Containers (deploymentObj d))).2
           then <[deploymentKey d :=
                    deploymentObj
                      (setContainers (patched name (Containers (deploymentObj d))) d)]> m
           else m)
    m items.

(** The updates the loop issues for [items]. *)
Definition workloadWrites (name : string) (items : list Deployment) : list Call :=
  flat_map (λ d,
              if (patchContainers name (Containers (deploymentObj d))).2
              then [UpdateDeployment
                      (setContainers (patched name (Containers (deploymentObj d))) d)]
              else [])
    items.

(** Idempotence in its strongest reading: a second pass right after a
    first one, neither disturbed by a transport failure, issues no write
    to the ConfigMap and none to a workload, and ends [Applied]. *)
Definition secondPassWritesNothing (now1 now2 : Time) (req : NamespacedName)
    (cl : Cluster) : Prop :=
  let r1 := pass noFault now1 req cl in
  let r2 := pass noFault now2 req (cluster r1.2) in
  List.filter isMutation (calls (trace r2.2)) = []
  ∧ storedPhase (cluster r2.2) req = Some "Applied".

(** [Applied] only after the deployments were listed: in a pass whose
    ConfigMap write went through and which left the phase [Applied], no
    deployment list call failed. *)
Definition appliedOnlyIfListed (fault : list Event -> Call -> option error)
    (now : Time) (req : NamespacedName) (cl : Cluster) : Prop :=
  let r := pass fault now req cl in
  (∃ ev, ev ∈ trace r.2 ∧ isConfigWrite (call ev) = true ∧ failure ev = None) →
  storedPhase (cluster r.2) req = Some "Applied" →
  ∀ ev opts, ev ∈ trace r.2 → call ev = ListDeployments opts → failure ev = None.

(** Two specs that differ at most in [Enabled] and [Headers]. *)
Definition sameButFlags (spec1 spec2 : TracingConfigSpec) : Prop :=
  SamplingRate spec1 = SamplingRate spec2
  ∧ Endpoint spec1 = Endpoint spec2
  ∧ ServiceName spec1 = ServiceName spec2
  ∧ Namespace spec1 = Namespace spec2
  ∧ Selector spec1 = Selector spec2
  ∧ Attributes spec1 = Attributes spec2
  ∧ ExportTimeout spec1 = ExportTimeout spec2
  ∧ BatchTimeout spec1 = BatchTimeout spec2
  ∧ MaxBatchSize spec1 = MaxBatchSize spec2.

(** Two stores that hold the same objects but for the specs of the
    policies. *)
Definition sameButSpecs (cl1 cl2 : Cluster) : Prop :=
  snd <$> tracingConfigs cl1 = snd <$> tracingConfigs cl2
  ∧ configMaps cl1 = configMaps cl2
  ∧ pods cl1 = pods cl2
  ∧ deployments cl1 = deployments cl2.

(** A computation that never reads the spec a policy has in the store:
    from two such stores and the same trace it returns the same result and
    makes the same calls, and leaves two such stores. *)
Definition ignoresStoredSpecs {A : Type} (m : M A) : Prop :=
  ∀ s1 s2, trace s1 = trace s2 → sameButSpecs (cluster s1) (cluster s2) →
    (m s1).1 = (m s2).1
    ∧ trace (m s1).2 = trace (m s2).2
    ∧ sameButSpecs (cluster (m s1).2) (cluster (m s2).2).

(** A computation only adds to the trace. *)
Definition grows {A : Type} (m : M A) : Prop :=
  ∀ s, trace s `prefix_of` trace (m s).2.

(** The status written on an error exit. *)
Definition failedStatus (message : string) (old : TracingConfigStatus)
  : TracingConfigStatus :=
  {| Phase := "Failed"; Message := message;
     AppliedAt := AppliedAt old; TargetPods := TargetPods old |}.

(** The status written at the end of a pass that went through. *)
Definition appliedStatus (now : Time) (targetPodNames : list string)
  : TracingConfigStatus :=
  {| Phase := "Applied"; Message := appliedMessage targetPodNames;
     AppliedAt := Some now; TargetPods := targetPodNames |}.

(** The status written at the start of a pass. *)
Definition pendingStatus (old : TracingConfigStatus) : TracingConfigStatus :=
  {| Phase := "Pending"; Message := "Processing tracing configuration";
     AppliedAt := AppliedAt old; TargetPods := TargetPods old |}.

(** The policy as the reconciler holds it once it has set [Pending]. *)
Definition found (req : NamespacedName) (spec : TracingConfigSpec)
    (status : TracingConfigStatus) : TracingConfig :=
  {| ObjectNamespace := req.1; ObjectName := req.2; Spec := spec;
     Status := pendingStatus status |}.

End Observations.

(** * Properties *)

Lemma bind_run {S A B : Type} (m : StateM S A) (k : A -> StateM S B) (s : S) :
  bind m k s = k (m s).1 (m s).2.
Proof. reflexivity. Qed.

Ltac split_decide :=
  match goal with |- context [decide ?P] => destruct (decide P) end.

(** ** The formatting verbs *)

Module FmtFacts.

(** The quotient chosen by [round_half_even] is a nearest integer: twice
    the numerator is within one denominator of twice its multiple. *)
Lemma round_half_even_nearest (num den : Z) :
  0 <= num → 0 < den →
  let q := Fmt.round_half_even num den in
  0 <= q ∧ Z.abs (2 * num - 2 * den * q) <= den.
Proof.
  intros Hnum Hden. unfold Fmt.round_half_even.
  pose proof (Z.div_mod num den ltac:(lia)) as Hdm.
  pose proof (Z.mod_pos_bound num den Hden) as Hr.
  pose proof (Z.div_pos num den Hnum Hden) as Hq.
  destruct (Z.ltb_spec (2 * (num mod den)) den);
    [|destruct (Z.ltb_spec den (2 * (num mod den)));
      [|destruct (Z.even (num / den))]];
    cbn zeta; nia.
Qed.

(** A tie goes to the even neighbour. *)
Lemma round_half_even_tie (num den : Z) :
  0 <= num → 0 < den → 2 * (num mod den) = den →
  Z.even (Fmt.round_half_even num den) = true.
Proof.
  intros Hnum Hden Htie. unfold Fmt.round_half_even.
  destruct (Z.ltb_spec (2 * (num mod den)) den); [lia|].
  destruct (Z.ltb_spec den (2 * (num mod den))); [lia|].
  destruct (Z.even (num / den)) eqn:Heven; [done|].
  rewrite Z.even_add, Heven. done.
Qed.

(** [%.2f] on a finite non-zero number: sign, integer part, a point and
    exactly two digits. *)
Lemma f2_spec_finite (s : bool) (m : positive) (e : Z) :
  Fmt.f2_spec (S754_finite s m e) =
  Fmt.sign s +:+ Fmt.d (Fmt.hundredths m e / 100) +:+ "."
    +:+ String (Fmt.digit (Fmt.hundredths m e mod 100 / 10))
          (String (Fmt.digit (Fmt.hundredths m e mod 100 mod 10)) "").
Proof. reflexivity. Qed.

Example f2_half : Fmt.f2 0.5%float = "0.50".
Proof. vm_compute. reflexivity. Qed.

Example f2_eighth : Fmt.f2 0.125%float = "0.12".
Proof. vm_compute. reflexivity. Qed.

Example f2_three_eighths : Fmt.f2 0.375%float = "0.38".
Proof. vm_compute. reflexivity. Qed.

(** [%d] prints a positive integer as the decimal numeral that reads
    back as it. *)
Lemma d_reads_back (n : Z) :
  0 < n → NilZero.int_of_string (Fmt.d n) = Some (Z.to_int n).
Proof.
  intros Hn. unfold Fmt.d. apply NilZero.isi.
  - destruct n as [|p|p]; try lia. cbn. intros Heq. injection Heq as Heq.
    by apply (DecimalPos.Unsigned.to_uint_nonnil p).
  - destruct n as [|p|p]; try lia. cbn. discriminate.
Qed.

Example d_512 : Fmt.d 512 = "512".
Proof. reflexivity. Qed.

End FmtFacts.

(** ** The compiled payload *)

Section CompilerFacts.
Context `{LabelLibrary}.

Lemma attributeData_cons kv entries data :
  attributeData (kv :: entries) data =
  attributeData entries (<[attributePrefix +:+ kv.1 := kv.2]> data).
Proof. reflexivity. Qed.

Lemma attributeData_other entries data key :
  (∀ kv, kv ∈ entries → attributePrefix +:+ kv.1 ≠ key) →
  attributeData entries data !! key = data !! key.
Proof.
  revert data. induction entries as [|kv entries IH]; intros data Hne; [done|].
  rewrite attributeData_cons, IH.
  - rewrite lookup_insert_ne; [done|]. apply Hne. by left.
  - intros kv' Hin. apply Hne. by right.
Qed.

Lemma attributeData_entry entries data k v :
  NoDup entries.*1 → (k, v) ∈ entries →
  attributeData entries data !! (attributePrefix +:+ k) = Some v.
Proof.
  revert data. induction entries as [|[k' v'] entries IH]; intros data Hnd Hin.
  - by apply elem_of_nil in Hin.
  - rewrite attributeData_cons.
    apply NoDup_cons in Hnd as [Hfresh Hnd].
    apply elem_of_cons in Hin as [Heq|Hin].
    + injection Heq as <- <-.
      rewrite attributeData_other; [by rewrite lookup_insert_eq|].
      intros kv Hkv Heq. apply (inj _) in Heq.
      apply Hfresh. simpl. rewrite <- Heq. by apply list_elem_of_fmap_2.
    + by apply IH.
Qed.

Lemma rangeOrder_NoDup m entries : rangeOrder m entries → NoDup entries.*1.
Proof.
  intros Hp. unfold rangeOrder in Hp. rewrite Hp. apply NoDup_fst_map_to_list.
Qed.

Lemma rangeOrder_elem m entries k v :
  rangeOrder m entries → (k, v) ∈ entries ↔ m !! k = Some v.
Proof.
  intros Hp. unfold rangeOrder in Hp. rewrite Hp. apply elem_of_map_to_list.
Qed.

(** The loop over the attributes sets the prefixed key of each entry... *)
Lemma attributeData_attribute m entries data k :
  rangeOrder m entries →
  attributeData entries data !! (attributePrefix +:+ k) =
    match m !! k with
    | Some v => Some v
    | None => data !! (attributePrefix +:+ k)
    end.
Proof.
  intros Hp. destruct (m !! k) as [v|] eqn:Hk.
  - apply attributeData_entry; [by eapply rangeOrder_NoDup|].
    by apply (rangeOrder_elem m).
  - apply attributeData_other. intros [k' v'] Hin Heq. apply (inj _) in Heq.
    simpl in Heq. subst k'. apply (rangeOrder_elem m) in Hin; [|done]. congruence.
Qed.

(** ... and leaves every other key alone, whatever the enumeration. *)
Lemma attributeData_elsewhere m entries data key :
  rangeOrder m entries →
  (∀ k, is_Some (m !! k) → key ≠ attributePrefix +:+ k) →
  attributeData entries data !! key = data !! key.
Proof.
  intros Hp Hne. apply attributeData_other. intros [k v] Hin Heq.
  apply (Hne k); [|done]. apply (rangeOrder_elem m) in Hin; [|done]. by exists v.
Qed.

Lemma requiredData_lookup spec key :
  requiredData spec !! key =
    if decide (key = "OTEL_TRACES_SAMPLER_ARG") then Some (Fmt.f2 (SamplingRate spec))
    else if decide (key = "OTEL_TRACES_SAMPLER") then Some "traceidratio"
    else if decide (key = "OTEL_SERVICE_NAME") then Some (ServiceName spec)
    else if decide (key = "OTEL_EXPORTER_OTLP_ENDPOINT") then Some (Endpoint spec)
    else None.
Proof.
  unfold requiredData.
  repeat (case_decide; [subst; by simplify_map_eq|]).
  by simplify_map_eq.
Qed.

Lemma eqb_empty_decide (s : string) :
  String.eqb s "" = bool_decide (s = "").
Proof.
  destruct (String.eqb_spec s "").
  - by rewrite bool_decide_eq_true_2.
  - by rewrite bool_decide_eq_false_2.
Qed.

Lemma optionalData_lookup spec data key :
  optionalData spec data !! key =
    if decide (key = "OTEL_BSP_MAX_EXPORT_BATCH_SIZE" ∧ 0 < MaxBatchSize spec)
    then Some (Fmt.d (MaxBatchSize spec))
    else if decide (key = "OTEL_BSP_SCHEDULE_DELAY" ∧ BatchTimeout spec ≠ "")
    then Some (BatchTimeout spec)
    else if decide (key = "OTEL_EXPORTER_OTLP_TIMEOUT" ∧ ExportTimeout spec ≠ "")
    then Some (ExportTimeout spec)
    else data !! key.
Proof.
  unfold optionalData. rewrite !eqb_empty_decide.
  destruct (Z.ltb_spec 0 (MaxBatchSize spec)) as [Hpos|Hpos];
    repeat case_bool_decide; repeat case_decide;
    repeat match goal with Hc : _ ∧ _ |- _ => destruct Hc end;
    simplify_map_eq; try done; try lia.
Qed.

(** No fixed key starts with the attribute prefix. *)
Lemma fixed_lookup_prefixed spec k :
  optionalData spec (requiredData spec) !! (attributePrefix +:+ k) = None.
Proof.
  rewrite optionalData_lookup, requiredData_lookup.
  repeat (split_decide; [exfalso; cbn in *; naive_solver|]).
  done.
Qed.

Lemma configMapDataIn_attribute entries spec k :
  rangeOrder (Attributes spec) entries →
  configMapDataIn entries spec !! (attributePrefix +:+ k) = Attributes spec !! k.
Proof.
  intros Hp. unfold configMapDataIn.
  rewrite (attributeData_attribute _ _ _ _ Hp), fixed_lookup_prefixed.
  by destruct (Attributes spec !! k).
Qed.

Lemma configMapDataIn_fixed entries spec key :
  rangeOrder (Attributes spec) entries →
  (∀ k, key ≠ attributePrefix +:+ k) →
  configMapDataIn entries spec !! key = optionalData spec (requiredData spec) !! key.
Proof.
  intros Hp Hne. unfold configMapDataIn.
  apply (attributeData_elsewhere _ _ _ _ Hp). intros k _. apply Hne.
Qed.

(** A key of the payload is a fixed key or the prefixed key of an
    attribute. *)
Lemma configMapDataIn_key entries spec key :
  rangeOrder (Attributes spec) entries →
  is_Some (configMapDataIn entries spec !! key) →
  is_Some (optionalData spec (requiredData spec) !! key)
  ∨ ∃ k, key = attributePrefix +:+ k ∧ is_Some (Attributes spec !! k).
Proof.
  intros Hp Hsome. unfold configMapDataIn in Hsome.
  destruct (decide (Exists (λ kv, attributePrefix +:+ kv.1 = key) entries))
    as [Hex|Hex].
  - right. apply Exists_exists in Hex as ([k v] & Hin & <-).
    exists k. split; [done|]. exists v. by apply (rangeOrder_elem _ entries).
  - left. rewrite attributeData_other in Hsome; [done|].
    intros kv Hin Heq. apply Hex, Exists_exists. by exists kv.
Qed.

Lemma rangeOrder_map_to_list (m : gmap string string) :
  rangeOrder m (map_to_list m).
Proof. by unfold rangeOrder. Qed.

Lemma size_set_map_inj (f : string → string) `{!Inj (=) (=) f} (X : gset string) :
  size (set_map (D:=gset string) f X) = size X.
Proof.
  induction X as [|x X Hfresh IH] using set_ind_L.
  - by rewrite set_map_empty, !size_empty.
  - rewrite set_map_union_L, set_map_singleton_L, !size_union, !size_singleton, IH.
    + done.
    + set_solver.
    + intros y Hy Hin. apply elem_of_singleton in Hy as ->.
      apply elem_of_map in Hin as (x' & Heq & Hx'). apply (inj f) in Heq.
      by subst x'.
Qed.

Lemma dom_requiredData spec : dom (requiredData spec) = requiredKeys.
Proof.
  unfold requiredData, requiredKeys.
  rewrite !dom_insert_L, dom_empty_L. set_solver.
Qed.

Lemma dom_optionalData spec data :
  dom (optionalData spec data) = dom data ∪ optionalKeys spec.
Proof.
  unfold optionalData, optionalKeys. rewrite !eqb_empty_decide.
  destruct (Z.ltb_spec 0 (MaxBatchSize spec)) as [Hpos|Hpos];
    destruct (decide (BatchTimeout spec = "")) as [Hb|Hb];
    destruct (decide (ExportTimeout spec = "")) as [He|He];
    rewrite ?(bool_decide_eq_true_2 _ Hb), ?(bool_decide_eq_false_2 _ Hb),
      ?(bool_decide_eq_true_2 _ He), ?(bool_decide_eq_false_2 _ He);
    (destruct (decide (0 < MaxBatchSize spec)); [|try lia]); try lia;
    rewrite ?dom_insert_L; set_solver.
Qed.

Lemma optionalKeys_lookup spec key :
  key ∈ requiredKeys ∪ optionalKeys spec ↔
  is_Some (optionalData spec (requiredData spec) !! key).
Proof.
  by rewrite <- elem_of_dom, dom_optionalData, dom_requiredData.
Qed.

(** C4. The payload has exactly the four required keys, each optional
    key exactly when its field is set (export timeout and batch timeout
    non-empty, max batch size positive, printed with [%d]), and one key
    per attribute, the fixed prefix followed by the attribute's key,
    with the attribute's value; the sampler kind is [traceidratio] and
    the ratio is the sampling rate under [%.2f]. *)
Theorem C4_payload_keys (spec : TracingConfigSpec) :
  let data := configMapData spec in
  dom data = requiredKeys ∪ optionalKeys spec ∪ attributeKeys spec
  ∧ data !! "OTEL_EXPORTER_OTLP_ENDPOINT" = Some (Endpoint spec)
  ∧ data !! "OTEL_SERVICE_NAME" = Some (ServiceName spec)
  ∧ data !! "OTEL_TRACES_SAMPLER" = Some "traceidratio"
  ∧ data !! "OTEL_TRACES_SAMPLER_ARG" = Some (Fmt.f2 (SamplingRate spec))
  ∧ data !! "OTEL_EXPORTER_OTLP_TIMEOUT" =
      (if decide (ExportTimeout spec = "") then None
       else Some (ExportTimeout spec))
  ∧ data !! "OTEL_BSP_SCHEDULE_DELAY" =
      (if decide (BatchTimeout spec = "") then None
       else Some (BatchTimeout spec))
  ∧ data !! "OTEL_BSP_MAX_EXPORT_BATCH_SIZE" =
      (if decide (0 < MaxBatchSize spec) then Some (Fmt.d (MaxBatchSize spec))
       else None)
  ∧ (∀ k, data !! (attributePrefix +:+ k) = Attributes spec !! k)
  ∧ size data = (size (requiredKeys ∪ optionalKeys spec) + size (Attributes spec))%nat.
Proof.
  pose proof (rangeOrder_map_to_list (Attributes spec)) as Hp.
  intros data. subst data. unfold configMapData.
  assert (Hdom : dom (configMapDataIn (map_to_list (Attributes spec)) spec)
                 = requiredKeys ∪ optionalKeys spec ∪ attributeKeys spec).
  { apply set_eq. intros key. rewrite elem_of_dom, elem_of_union.
    rewrite optionalKeys_lookup. unfold attributeKeys.
    rewrite elem_of_map. split.
    - intros Hsome. apply (configMapDataIn_key _ _ _ Hp) in Hsome
        as [Hfix|(k & -> & Hk)]; [by left|right].
      exists k. split; [done|]. by apply elem_of_dom.
    - intros [Hfix|(k & -> & Hk)].
      + destruct (decide (Exists (λ kv, attributePrefix +:+ kv.1 = key)
                            (map_to_list (Attributes spec)))) as [Hex|Hex].
        * apply Exists_exists in Hex as ([k v] & Hin & <-).
          rewrite fixed_lookup_prefixed in Hfix. by apply is_Some_None in Hfix.
        * unfold configMapDataIn. rewrite attributeData_other; [done|].
          intros kv Hin Heq. apply Hex, Exists_exists. by exists kv.
      + rewrite (configMapDataIn_attribute _ _ _ Hp). by apply elem_of_dom. }
  split; [exact Hdom|].
  repeat split.
  1-7: rewrite (configMapDataIn_fixed _ _ _ Hp),
         optionalData_lookup, requiredData_lookup
         by (intros k Hk; cbn in Hk; discriminate Hk);
       repeat split_decide;
       repeat match goal with Hc : _ ∧ _ |- _ => destruct Hc end;
       try done; try lia; naive_solver.
  - intros k. apply (configMapDataIn_attribute _ _ _ Hp).
  - rewrite <- size_dom, Hdom, size_union.
    + f_equal. unfold attributeKeys. rewrite size_set_map_inj by apply _.
      apply size_dom.
    + intros key Hfix Hattr. unfold attributeKeys in Hattr.
      apply elem_of_map in Hattr as (k & -> & _).
      apply optionalKeys_lookup in Hfix.
      rewrite fixed_lookup_prefixed in Hfix. by apply is_Some_None in Hfix.
Qed.

(** Along any enumeration of the attributes the payload is the one
    [Reconcile] builds. *)
Lemma configMapDataIn_any_order entries spec :
  rangeOrder (Attributes spec) entries →
  configMapDataIn entries spec = configMapData spec.
Proof.
  intros Hp. pose proof (rangeOrder_map_to_list (Attributes spec)) as Hp'.
  apply map_eq. intros key. unfold configMapData.
  destruct (decide (Exists (λ kv, attributePrefix +:+ kv.1 = key) entries))
    as [Hex|Hex].
  - apply Exists_exists in Hex as ([k v] & Hin & <-). cbn [fst].
    by rewrite !configMapDataIn_attribute.
  - assert (∀ k, is_Some (Attributes spec !! k) → key ≠ attributePrefix +:+ k)
      as Hne.
    { intros k [v Hk] ->. apply Hex, Exists_exists. exists (k, v).
      split; [|done]. by apply (rangeOrder_elem (Attributes spec)). }
    unfold configMapDataIn.
    by rewrite !(attributeData_elsewhere (Attributes spec)).
Qed.

(** C9. Two runs of the compiler on the same spec produce the same
    key-value mapping, whatever the orders in which the two runs
    enumerate the attribute map. *)
Theorem C9_compiler_deterministic (spec : TracingConfigSpec)
    (entries1 entries2 : list (string * string)) :
  rangeOrder (Attributes spec) entries1 →
  rangeOrder (Attributes spec) entries2 →
  configMapDataIn entries1 spec = configMapDataIn entries2 spec.
Proof.
  intros Hp1 Hp2. by rewrite !configMapDataIn_any_order.
Qed.

End CompilerFacts.

Lemma C9_compiler_deterministic_witness :
  configMapDataIn [("team", "core"); ("env", "dev")] Scenario.spec
  = configMapDataIn [("env", "dev"); ("team", "core")] Scenario.spec.
Proof.
  apply C9_compiler_deterministic; unfold rangeOrder;
    apply (bool_decide_unpack _); vm_compute; exact I.
Defined.

(** ** The deployment patch loop *)

Section PatchFacts.
Context `{LabelLibrary}.

Lemma patched_map name containers :
  patched name containers = map (patchContainer name) containers.
Proof.
  unfold patched. induction containers as [|c cs IH]; [done|].
  cbn [patchContainers map]. unfold patchContainer at 1.
  destruct (envFromExists name c); cbn [fst]; by rewrite IH.
Qed.

Lemma patchContainers_updated name containers :
  (patchContainers name containers).2
  = existsb (λ c, negb (envFromExists name c)) containers.
Proof.
  induction containers as [|c cs IH]; [done|].
  cbn [patchContainers existsb].
  destruct (envFromExists name c); cbn [snd negb orb]; [exact IH|done].
Qed.

Lemma appendEnvFrom_neq name c : appendEnvFrom name c ≠ c.
Proof.
  intros Heq. apply (f_equal (λ c, length (EnvFrom c))) in Heq.
  cbn in Heq. rewrite length_app in Heq. cbn in Heq. lia.
Qed.

Lemma patchContainer_fixed name c :
  patchContainer name c = c ↔ envFromExists name c = true.
Proof.
  unfold patchContainer. destruct (envFromExists name c); split; try done.
  intros Heq. by apply appendEnvFrom_neq in Heq.
Qed.

(** The [updated] flag is set exactly when the loop changed a container. *)
Lemma updated_iff_changed name containers :
  (patchContainers name containers).2 = true ↔ patched name containers ≠ containers.
Proof.
  rewrite patchContainers_updated, patched_map.
  induction containers as [|c cs IH]; [done|].
  cbn [existsb map]. rewrite orb_true_iff, IH, negb_true_iff.
  split.
  - intros [Hc|Hcs] Heq; injection Heq as Hhd Htl.
    + apply patchContainer_fixed in Hhd. congruence.
    + done.
  - intros Hne. destruct (envFromExists name c) eqn:Hc; [right|by left].
    intros Htl. apply Hne. f_equal; [|done]. by apply patchContainer_fixed.
Qed.

Lemma refersTo_configMapEnvFrom name : refersTo name (configMapEnvFrom name) = true.
Proof. unfold refersTo. cbn. apply String.eqb_refl. Qed.

Lemma envFromExists_patchContainer name c :
  envFromExists name (patchContainer name c) = true.
Proof.
  unfold patchContainer. destruct (envFromExists name c) eqn:Hc; [done|].
  unfold envFromExists, appendEnvFrom. cbn [EnvFrom].
  rewrite existsb_app. cbn [existsb].
  by rewrite refersTo_configMapEnvFrom, !orb_true_r.
Qed.

Lemma patchContainer_idempotent name c :
  patchContainer name (patchContainer name c) = patchContainer name c.
Proof. apply patchContainer_fixed, envFromExists_patchContainer. Qed.

Lemma patched_idempotent name containers :
  patched name (patched name containers) = patched name containers.
Proof.
  rewrite !patched_map, map_map. apply map_ext. intros c.
  apply patchContainer_idempotent.
Qed.

Lemma patched_not_updated name containers :
  (patchContainers name (patched name containers)).2 = false.
Proof.
  apply not_true_is_false. rewrite updated_iff_changed.
  intros Hne. apply Hne, patched_idempotent.
Qed.

Lemma envFromExists_countRefs name c :
  envFromExists name c = true ↔ (1 ≤ countRefs name c)%nat.
Proof.
  unfold envFromExists, countRefs.
  induction (EnvFrom c) as [|e es IH]; cbn; [split; [done|lia]|].
  destruct (refersTo name e); cbn; [split; [lia|done]|exact IH].
Qed.

Lemma countRefs_patchContainer name c :
  countRefs name (patchContainer name c) = Nat.max 1 (countRefs name c).
Proof.
  unfold patchContainer. destruct (envFromExists name c) eqn:Hc.
  - apply envFromExists_countRefs in Hc. lia.
  - assert (countRefs name c = 0%nat) as Hzero.
    { destruct (countRefs name c) eqn:Hn; [done|].
      assert (envFromExists name c = true); [|congruence].
      apply envFromExists_countRefs. lia. }
    rewrite Hzero. unfold countRefs, appendEnvFrom in *. cbn [EnvFrom].
    rewrite List.filter_app, length_app, Hzero. cbn [List.filter].
    by rewrite refersTo_configMapEnvFrom.
Qed.

Lemma iter_patched name containers N :
  (0 < N)%nat → Nat.iter N (patched name) containers = patched name containers.
Proof.
  intros HN. destruct N as [|N]; [lia|]. clear HN.
  induction N as [|N IH]; [done|].
  change (Nat.iter (S (S N)) (patched name) containers)
    with (patched name (Nat.iter (S N) (patched name) containers)).
  rewrite IH. apply patched_idempotent.
Qed.

(** The patch of one container only appends: what it held stays, in
    place and in order, and what it gains is the one new reference. *)
Lemma patchContainer_frame name c :
  containerName (patchContainer name c) = containerName c
  ∧ EnvFrom c `prefix_of` EnvFrom (patchContainer name c)
  ∧ List.filter (unrelated name) (EnvFrom (patchContainer name c))
    = List.filter (unrelated name) (EnvFrom c).
Proof.
  unfold patchContainer. destruct (envFromExists name c); [done|].
  unfold appendEnvFrom. cbn [containerName EnvFrom].
  split; [done|]. split; [by apply prefix_app_r|].
  rewrite List.filter_app. cbn [List.filter]. unfold unrelated at 2.
  rewrite refersTo_configMapEnvFrom. cbn [negb]. by rewrite app_nil_r.
Qed.

(** C5, amended. After [N >= 1] runs of the patch loop a container holds
    [max 1 k] references to the ConfigMap, where [k] is the number it
    held before: exactly one when it held none or one, never [N]; and a
    container that already carried the reference is left as it was. *)
Theorem C5_one_reference_per_container (name : string)
    (containers : list Container) (N i : nat) (c : Container) :
  (0 < N)%nat →
  containers !! i = Some c →
  ∃ c', Nat.iter N (patched name) containers !! i = Some c'
        ∧ countRefs name c' = Nat.max 1 (countRefs name c)
        ∧ ((countRefs name c ≤ 1)%nat → countRefs name c' = 1%nat)
        ∧ (envFromExists name c = true → c' = c).
Proof.
  intros HN Hi. exists (patchContainer name c).
  rewrite iter_patched by done. rewrite patched_map.
  change (map (patchContainer name) containers)
    with (patchContainer name <$> containers).
  rewrite list_lookup_fmap, Hi. split; [done|].
  rewrite countRefs_patchContainer. split; [done|]. split; [lia|].
  apply patchContainer_fixed.
Qed.

Variable fault : list Event -> Call -> option error.

Lemma invoke_trace {A : Type} (c : Call) serve (s : State) :
  ∃ failure, trace (invoke (A:=A) fault c serve s).2
             = trace s ++ [{| call := c; failure := failure |}].
Proof.
  unfold invoke. destruct (fault (trace s) c) as [err|]; cbn; by eexists.
Qed.

(** C8. A listed deployment is written back exactly when the loop
    modified one of its containers, by one update that carries the whole
    deployment; otherwise nothing is called and nothing changes. The
    patch keeps every container, its name and the references it held,
    in place and in order. *)
Theorem C8_write_back_iff_modified (name : string) (d : Deployment) (s : State) :
  let containers := Containers (deploymentObj d) in
  let after := (patchDeployment fault name d s).2 in
  (patched name containers ≠ containers
   ↔ ∃ c, c ∈ containers ∧ envFromExists name c = false)
  ∧ (patched name containers ≠ containers →
     ∃ failure,
       trace after
       = trace s ++ [{| call := UpdateDeployment
                                  {| deploymentKey := deploymentKey d;
                                     deploymentObj :=
                                       {| deploymentLabels := deploymentLabels (deploymentObj d);
                                          Containers := patched name containers |} |};
                        failure := failure |}])
  ∧ (patched name containers = containers → after = s)
  ∧ length (patched name containers) = length containers
  ∧ ∀ i c, containers !! i = Some c →
      ∃ c', patched name containers !! i = Some c'
            ∧ containerName c' = containerName c
            ∧ EnvFrom c `prefix_of` EnvFrom c'
            ∧ List.filter (unrelated name) (EnvFrom c')
              = List.filter (unrelated name) (EnvFrom c).
Proof.
  intros containers after. subst after. unfold patchDeployment.
  fold containers. repeat split.
  - intros Hne. apply updated_iff_changed in Hne.
    rewrite patchContainers_updated in Hne.
    apply existsb_exists in Hne as (c & Hin & Hc).
    exists c. split; [by apply list_elem_of_In|by apply negb_true_iff].
  - intros (c & Hin & Hc). apply updated_iff_changed.
    rewrite patchContainers_updated. apply existsb_exists.
    exists c. split; [by apply list_elem_of_In|by apply negb_true_iff].
  - intros Hne. apply updated_iff_changed in Hne. rewrite Hne.
    unfold bind, ret, Update_Deployment. cbn [snd].
    apply invoke_trace.
  - intros Heq.
    destruct (patchContainers name containers).2 eqn:Hupd; [|done].
    apply updated_iff_changed in Hupd. done.
  - rewrite patched_map. apply length_map.
  - intros i c Hi. exists (patchContainer name c).
    split; [|apply patchContainer_frame].
    rewrite patched_map. change (map (patchContainer name) containers)
      with (patchContainer name <$> containers).
    by rewrite list_lookup_fmap, Hi.
Qed.

End PatchFacts.

Lemma C5_one_reference_per_container_witness :
  ∃ c', Nat.iter 3 (patched "policy-tracing-config") [Scenario.plain "main"] !! 0%nat
        = Some c'
        ∧ countRefs "policy-tracing-config" c'
          = Nat.max 1 (countRefs "policy-tracing-config" (Scenario.plain "main"))
        ∧ ((countRefs "policy-tracing-config" (Scenario.plain "main") ≤ 1)%nat →
           countRefs "policy-tracing-config" c' = 1%nat)
        ∧ (envFromExists "policy-tracing-config" (Scenario.plain "main") = true →
           c' = Scenario.plain "main").
Proof.
  apply (C5_one_reference_per_container "policy-tracing-config"
           [Scenario.plain "main"] 3 0 (Scenario.plain "main")).
  - lia.
  - reflexivity.
Defined.

(** C5 as stated fails on a container that already lists the ConfigMap
    twice: the loop leaves it alone, so it still holds two references
    after three runs. *)
Lemma C5_counterexample :
  ¬ exactlyOneReference "policy-tracing-config" 3 [Scenario.doubled "main"].
Proof.
  intros Hone. specialize (Hone (Scenario.doubled "main")).
  assert (countRefs "policy-tracing-config" (Scenario.doubled "main") = 1%nat)
    as Hcount; [|vm_compute in Hcount; discriminate].
  apply Hone. vm_compute. by left.
Qed.

(** ** The client calls *)

Section ClientFacts.
Context `{LabelLibrary}.
Variable fault : list Event -> Call -> option error.

Lemma invoke_faulted {A : Type} (c : Call) serve (s : State) (err : error) :
  fault (trace s) c = Some err →
  invoke (A:=A) fault c serve s
  = (inl err,
     {| cluster := cluster s;
        trace := trace s ++ [{| call := c; failure := Some err |}] |}).
Proof. intros Hf. unfold invoke. by rewrite Hf. Qed.

Lemma invoke_served {A : Type} (c : Call) serve (s : State) :
  fault (trace s) c = None →
  invoke (A:=A) fault c serve s
  = ((serve (cluster s)).1,
     {| cluster := (serve (cluster s)).2;
        trace := trace s ++ [{| call := c;
                                failure := errorOf (serve (cluster s)).1 |}] |}).
Proof. intros Hf. unfold invoke. by rewrite Hf. Qed.

(** A client call followed by the rest of the pass. *)
Lemma invoke_bind {A B : Type} (c : Call) serve (k : error + A -> M B) (s : State) :
  bind (invoke fault c serve) k s
  = match fault (trace s) c with
    | Some err =>
        k (inl err)
          {| cluster := cluster s;
             trace := trace s ++ [{| call := c; failure := Some err |}] |}
    | None =>
        k (serve (cluster s)).1
          {| cluster := (serve (cluster s)).2;
             trace := trace s ++ [{| call := c;
                                     failure := errorOf (serve (cluster s)).1 |}] |}
    end.
Proof.
  rewrite bind_run. unfold invoke. by destruct (fault (trace s) c).
Qed.

End ClientFacts.

(** ** The reconcile pass *)

Ltac normg :=
  cbn [fst snd cluster trace app Spec Status ObjectNamespace ObjectName
       setPhase Phase Message AppliedAt TargetPods errorOf ret
       tracingConfigs configMaps pods deployments
       setTracingConfigs setConfigMaps setDeployments
       call failure calls map last].

Ltac norm :=
  cbn [fst snd cluster trace app Spec Status ObjectNamespace ObjectName
       setPhase Phase Message AppliedAt TargetPods errorOf ret
       tracingConfigs configMaps pods deployments
       setTracingConfigs setConfigMaps setDeployments
       call failure calls map last] in *.

(** Case analysis on the oracle's answer to the next call. *)
Ltac oracle :=
  match goal with
  | |- context [match ?f ?t ?c with Some _ => _ | None => _ end] =>
      is_var f; destruct (f t c) as [?err|] eqn:?Hfault
  end.

Ltac crunch :=
  repeat (normg;
          first
            [ rewrite invoke_bind
            | oracle
            | match goal with
              | |- context [match ?m !! ?k with _ => _ end] =>
                  destruct (m !! k) eqn:?
              end
            | match goal with
              | |- context [match ?x with _ => _ end] => destruct x eqn:?
              end ]);
  normg.

Ltac no_success :=
  eexists; split; [reflexivity|];
  repeat first [apply List.Forall_nil | apply List.Forall_cons; [by cbn|]].

Section PassFacts.
Context `{LabelLibrary}.
Variable fault : list Event -> Call -> option error.

(** C6. With a selector the library rejects, the pass makes three calls
    and no other: the read of the policy, the status update to
    [Pending] and the status update to [Failed], whose message names the
    selector error. No ConfigMap is created or updated, nothing is listed
    and no deployment is patched; the error is returned. *)
Theorem C6_invalid_selector_short_circuit (now : Time) (req : NamespacedName)
    (cl : Cluster) (spec : TracingConfigSpec) (status : TracingConfigStatus)
    (labelSelector : metav1_LabelSelector) (err : error) :
  fault [] (GetTracingConfig req) = None →
  tracingConfigs cl !! req = Some (spec, status) →
  Selector spec = Some labelSelector →
  LabelSelectorAsSelector labelSelector = inl err →
  let r := pass fault now req cl in
  r.1 = ({| RequeueAfter := 0 |}, Some err)
  ∧ calls (trace r.2)
    = [GetTracingConfig req;
       UpdateStatus req (pendingStatus status);
       UpdateStatus req
         (failedStatus ("Invalid label selector: " +:+ Error err) status)]
  ∧ configMaps (cluster r.2) = configMaps cl
  ∧ deployments (cluster r.2) = deployments cl
  ∧ (∀ ev, last (trace r.2) = Some ev → failure ev = None →
       storedPhase (cluster r.2) req = Some "Failed").
Proof.
  intros Hget Hpolicy Hsel Herr r. subst r. destruct req as [ns name].
  unfold pass, Reconcile, Get_TracingConfig. rewrite invoke_bind.
  norm. rewrite Hget, Hpolicy. norm.
  unfold Status_Update. rewrite invoke_bind. norm.
  oracle; norm; rewrite ?Hpolicy; norm.
  all: unfold listTargets, listOptions; norm; rewrite Hsel, Herr.
  all: unfold failed, Status_Update; rewrite invoke_bind; norm.
  all: oracle; norm; rewrite ?Hpolicy, ?lookup_insert_eq; norm.
  all: (repeat split; [done..|]).
  all: intros ev Hlast Hok; injection Hlast as <-; norm;
    try discriminate Hok.
  all: unfold storedPhase; norm; by rewrite lookup_insert_eq.
Qed.

(** *** The trace only grows *)

Lemma grows_ret {A : Type} (a : A) : grows (ret a).
Proof. intros s. done. Qed.

Lemma grows_bind {A B : Type} (m : M A) (k : A -> M B) :
  grows m → (∀ a, grows (k a)) → grows (bind m k).
Proof.
  intros Hm Hk s. rewrite bind_run. etrans; [apply Hm|apply Hk].
Qed.

Lemma grows_invoke {A : Type} (c : Call) serve : grows (invoke (A:=A) fault c serve).
Proof.
  intros s. destruct (invoke_trace fault c serve s) as [failure ->].
  by apply prefix_app_r.
Qed.

Ltac grows :=
  repeat first
    [ apply grows_ret
    | apply grows_invoke
    | apply grows_bind; [|intros ?]
    | match goal with
      | |- grows (match ?x with _ => _ end) => destruct x
      | |- grows (if ?x then _ else _) => destruct x
      end ].

Lemma grows_patchDeployments name items : grows (patchDeployments fault name items).
Proof.
  induction items as [|d items IH]; cbn [patchDeployments]; [apply grows_ret|].
  apply grows_bind; [|by intros _]. unfold patchDeployment, Update_Deployment. grows.
Qed.

Lemma grows_afterConfigMap now tc name opts names :
  grows (afterConfigMap fault now tc name opts names).
Proof.
  unfold afterConfigMap, updateDeployments, applied, List_Deployments, Status_Update.
  grows. apply grows_patchDeployments.
Qed.

Lemma grows_listTargets now tc : grows (listTargets fault now tc).
Proof.
  unfold listTargets, ensureConfigMap, failed, List_Pods, Get_ConfigMap,
    Create_ConfigMap, Update_ConfigMap, Status_Update.
  grows; apply grows_patchDeployments.
Qed.

(** C7. A pass that finds the policy first writes the status with phase
    [Pending] and the work-in-progress message: that status update is the
    second call of the pass, right after the read of the policy, so every
    write to the ConfigMap or to a workload comes after it. *)
Theorem C7_pending_before_mutation (now : Time) (req : NamespacedName)
    (cl : Cluster) (spec : TracingConfigSpec) (status : TracingConfigStatus) :
  fault [] (GetTracingConfig req) = None →
  tracingConfigs cl !! req = Some (spec, status) →
  let tr := trace (pass fault now req cl).2 in
  Phase (pendingStatus status) = "Pending"
  ∧ Message (pendingStatus status) = "Processing tracing configuration"
  ∧ (∃ failure rest,
       tr = {| call := GetTracingConfig req; failure := None |}
            :: {| call := UpdateStatus req (pendingStatus status);
                  failure := failure |}
            :: rest)
  ∧ ∀ i ev, tr !! i = Some ev → isMutation (call ev) = true →
      ∃ j ev', (j < i)%nat ∧ tr !! j = Some ev'
               ∧ call ev' = UpdateStatus req (pendingStatus status).
Proof.
  intros Hget Hpolicy tr.
  assert (∃ failure rest,
       tr = {| call := GetTracingConfig req; failure := None |}
            :: {| call := UpdateStatus req (pendingStatus status);
                  failure := failure |}
            :: rest) as Hshape.
  { subst tr. destruct req as [ns name].
    unfold pass, Reconcile, Get_TracingConfig. rewrite invoke_bind.
    norm. rewrite Hget, Hpolicy. norm.
    unfold Status_Update. rewrite invoke_bind. norm.
    oracle; norm; rewrite ?Hpolicy; norm.
    all: match goal with
         | |- context [listTargets fault ?n ?tc ?s] =>
             destruct (grows_listTargets n tc s) as [rest Hrest]
         end; rewrite Hrest; norm; by eexists _, _. }
  split; [done|]. split; [done|]. split; [exact Hshape|].
  destruct Hshape as (failure & rest & ->).
  intros i ev Hi Hmut. destruct i as [|[|i]].
  - injection Hi as <-. discriminate Hmut.
  - injection Hi as <-. discriminate Hmut.
  - exists 1%nat. eexists. split; [lia|]. split; [reflexivity|done].
Qed.

(** *** The part of the pass after the ConfigMap is written *)

Lemma patchDeployment_trace name d s :
  ∃ added,
    trace (patchDeployment fault name d s).2 = trace s ++ added
    ∧ Forall (λ ev, isWorkloadWrite (call ev) = true) added
    ∧ ((patchContainers name (Containers (deploymentObj d))).2 = true →
       ∃ ev, ev ∈ added
             ∧ call ev = UpdateDeployment
                 (setContainers (patched name (Containers (deploymentObj d))) d)).
Proof.
  unfold patchDeployment.
  destruct (patchContainers name (Containers (deploymentObj d))).2 eqn:Hupd.
  - unfold Update_Deployment. rewrite invoke_bind.
    oracle; norm; eexists [_]; (split; [reflexivity|]);
      (split; [by repeat constructor|]); intros _; eexists;
      (split; [by left|reflexivity]).
  - exists []. rewrite app_nil_r. by repeat split.
Qed.

Lemma patchDeployments_trace name items s :
  ∃ added,
    trace (patchDeployments fault name items s).2 = trace s ++ added
    ∧ Forall (λ ev, isWorkloadWrite (call ev) = true) added
    ∧ ∀ d, d ∈ items →
        (patchContainers name (Containers (deploymentObj d))).2 = true →
        ∃ ev, ev ∈ added
              ∧ call ev = UpdateDeployment
                  (setContainers (patched name (Containers (deploymentObj d))) d).
Proof.
  revert s. induction items as [|d items IH]; intros s.
  - exists []. cbn. rewrite app_nil_r. repeat split; [done|].
    intros d Hd. by apply elem_of_nil in Hd.
  - cbn [patchDeployments]. rewrite bind_run.
    destruct (patchDeployment_trace name d s) as (added1 & Htr1 & Hw1 & Hcov1).
    destruct (IH (patchDeployment fault name d s).2) as (added2 & Htr2 & Hw2 & Hcov2).
    exists (added1 ++ added2). rewrite Htr2, Htr1, app_assoc.
    split; [done|]. split; [by apply Forall_app|].
    intros d' Hd' Hupd. apply elem_of_cons in Hd' as [->|Hd'].
    + destruct (Hcov1 Hupd) as (ev & Hin & Hcall). exists ev.
      split; [|done]. apply elem_of_app. by left.
    + destruct (Hcov2 d' Hd' Hupd) as (ev & Hin & Hcall). exists ev.
      split; [|done]. apply elem_of_app. by right.
Qed.

Lemma patchDeployments_frame name items s :
  tracingConfigs (cluster (patchDeployments fault name items s).2)
  = tracingConfigs (cluster s).
Proof.
  revert s. induction items as [|d items IH]; intros s; [done|].
  cbn [patchDeployments]. rewrite bind_run, IH.
  unfold patchDeployment.
  destruct (patchContainers name (Containers (deploymentObj d))).2; [|done].
  unfold Update_Deployment. rewrite invoke_bind.
  oracle; norm.
  - done.
  - by match goal with |- context [match ?x with _ => _ end] => destruct x end.
Qed.

Lemma applied_run now tc names s :
  let r := applied fault now tc names s in
  ∃ failure,
    trace r.2
    = trace s ++ [{| call := UpdateStatus (ObjectNamespace tc, ObjectName tc)
                               (appliedStatus now names);
                     failure := failure |}]
    ∧ (failure = None →
       storedPhase (cluster r.2) (ObjectNamespace tc, ObjectName tc) = Some "Applied")
    ∧ (is_Some (tracingConfigs (cluster s) !! (ObjectNamespace tc, ObjectName tc)) →
       fault (trace s)
         (UpdateStatus (ObjectNamespace tc, ObjectName tc) (appliedStatus now names))
       = None →
       failure = None ∧ r.1 = ({| RequeueAfter := 5 * Minute |}, None)).
Proof.
  unfold applied, Status_Update, appliedStatus. rewrite invoke_bind. norm.
  oracle; norm.
  - eexists. split; [reflexivity|]. split; [done|]. by intros _ ?.
  - destruct (tracingConfigs (cluster s) !! (ObjectNamespace tc, ObjectName tc))
      as [obj|] eqn:Hobj; norm.
    + eexists. split; [reflexivity|]. split; [|done].
      intros _. unfold storedPhase. norm. by rewrite lookup_insert_eq.
    + eexists. split; [reflexivity|]. split; [done|].
      intros Hsome. by apply is_Some_None in Hsome.
Qed.

Lemma updateDeployments_run name opts s :
  let r := updateDeployments fault name opts s in
  ∃ listFailure added,
    trace r.2
    = trace s ++ {| call := ListDeployments opts; failure := listFailure |} :: added
    ∧ Forall (λ ev, isWorkloadWrite (call ev) = true) added
    ∧ tracingConfigs (cluster r.2) = tracingConfigs (cluster s)
    ∧ (listFailure = None →
       ∀ d, d ∈ listedDeployments opts (cluster s) →
         (patchContainers name (Containers (deploymentObj d))).2 = true →
         ∃ ev, ev ∈ added
               ∧ call ev = UpdateDeployment
                   (setContainers (patched name (Containers (deploymentObj d))) d)).
Proof.
  unfold updateDeployments, List_Deployments. rewrite invoke_bind. norm.
  oracle; norm.
  - exists (Some err), []. by repeat split.
  - match goal with
    | |- context [patchDeployments fault name ?items ?s1] =>
        destruct (patchDeployments_trace name items s1) as (added & Htr & Hw & Hcov);
        pose proof (patchDeployments_frame name items s1) as Hframe
    end.
    exists None, added. rewrite Htr. norm. rewrite <- app_assoc.
    split; [done|]. split; [done|]. split; [done|].
    intros _ d Hd Hupd. by apply Hcov.
Qed.

Lemma afterConfigMap_run now tc name opts names s :
  let r := afterConfigMap fault now tc name opts names s in
  ∃ listFailure added failure,
    trace r.2
    = trace s
      ++ {| call := ListDeployments opts; failure := listFailure |}
      :: added
      ++ [{| call := UpdateStatus (ObjectNamespace tc, ObjectName tc)
                       (appliedStatus now names);
             failure := failure |}]
    ∧ Forall (λ ev, isWorkloadWrite (call ev) = true) added
    ∧ (failure = None →
       storedPhase (cluster r.2) (ObjectNamespace tc, ObjectName tc) = Some "Applied")
    ∧ (listFailure = None →
       ∀ d, d ∈ listedDeployments opts (cluster s) →
         (patchContainers name (Containers (deploymentObj d))).2 = true →
         ∃ ev, ev ∈ added
               ∧ call ev = UpdateDeployment
                   (setContainers (patched name (Containers (deploymentObj d))) d)).
Proof.
  unfold afterConfigMap. rewrite bind_run.
  destruct (updateDeployments_run name opts s)
    as (listFailure & added & Htr & Hw & _ & Hcov).
  destruct (applied_run now tc names (updateDeployments fault name opts s).2)
    as (failure & Htr' & Hstored & _).
  exists listFailure, added, failure. rewrite Htr', Htr, <- app_assoc.
  by repeat split.
Qed.

End PassFacts.

(** ** The ways a pass can end *)

Section PassCases.
Context `{LabelLibrary}.
Variable fault : list Event -> Call -> option error.

(** From the read of the ConfigMap on: either no write to it goes through,
    or the pass reaches the deployment stage having only read and written
    ConfigMaps. *)
Lemma ensureConfigMap_cases now tc targetNamespace opts names s :
  let r := ensureConfigMap fault now tc targetNamespace opts names s in
  (∃ added,
     trace r.2 = trace s ++ added
     ∧ Forall (λ ev, isConfigWrite (call ev) = true → failure ev ≠ None) added)
  ∨ ∃ s' added,
      r = afterConfigMap fault now tc (configMapName (ObjectName tc)) opts names s'
      ∧ trace s' = trace s ++ added
      ∧ Forall (λ ev, isWorkloadCall (call ev) = false) added
      ∧ tracingConfigs (cluster s') = tracingConfigs (cluster s)
      ∧ pods (cluster s') = pods (cluster s)
      ∧ deployments (cluster s') = deployments (cluster s).
Proof.
  intros r. subst r.
  unfold ensureConfigMap, failed, Status_Update, Get_ConfigMap, Create_ConfigMap,
    Update_ConfigMap.
  crunch.
  all: rewrite <- ?app_assoc; cbn [app].
  all: try (left; no_success).
  all: right; eexists _, _; (split; [reflexivity|]); normg;
    rewrite <- ?app_assoc; (split; [reflexivity|]);
    split; [by repeat constructor|done].
Qed.

(** From the selector on. *)
Lemma listTargets_cases now tc s :
  let r := listTargets fault now tc s in
  (∃ added,
     trace r.2 = trace s ++ added
     ∧ Forall (λ ev, isConfigWrite (call ev) = true → failure ev ≠ None) added)
  ∨ ∃ opts s' added,
      listOptions (targetNamespaceOf tc) (Spec tc) = inr opts
      ∧ r = afterConfigMap fault now tc (configMapName (ObjectName tc)) opts
              (selectedPods opts (cluster s)) s'
      ∧ trace s' = trace s ++ added
      ∧ Forall (λ ev, isWorkloadCall (call ev) = false) added
      ∧ tracingConfigs (cluster s') = tracingConfigs (cluster s)
      ∧ pods (cluster s') = pods (cluster s)
      ∧ deployments (cluster s') = deployments (cluster s).
Proof.
  intros r. subst r. unfold listTargets.
  destruct (listOptions (targetNamespaceOf tc) (Spec tc)) as [err|opts] eqn:Hopts.
  - left. unfold failed, Status_Update. crunch; no_success.
  - unfold List_Pods. rewrite invoke_bind. oracle; normg.
    + left. unfold failed, Status_Update. crunch; rewrite <- ?app_assoc; no_success.
    + match goal with
      | |- context [ensureConfigMap fault ?n ?t ?ns ?o ?names ?s1] =>
          destruct (ensureConfigMap_cases n t ns o names s1)
            as [(added & Htr & Hno)|(s' & added & Hr & Htr & Hno & Htc & Hp & Hd)]
      end.
      * left. eexists. rewrite Htr. normg. rewrite <- app_assoc.
        split; [reflexivity|]. apply List.Forall_cons; [by cbn|done].
      * right. exists opts, s'. eexists. split; [done|].
        split; [exact Hr|]. rewrite Htr. normg. rewrite <- app_assoc.
        split; [reflexivity|]. split; [|done].
        apply List.Forall_cons; [by cbn|done].
Qed.

(** Either no write to the ConfigMap went through, or the pass reached the
    deployment stage, from a state in which only the policy status and the
    ConfigMaps may differ from the start and nothing was listed or patched
    yet. *)
Lemma pass_cases now req cl :
  let r := pass fault now req cl in
  (∀ ev, ev ∈ trace r.2 → isConfigWrite (call ev) = true → failure ev ≠ None)
  ∨ ∃ spec status opts s,
      tracingConfigs cl !! req = Some (spec, status)
      ∧ listOptions (targetNamespaceOf (found req spec status)) spec = inr opts
      ∧ pods (cluster s) = pods cl
      ∧ deployments (cluster s) = deployments cl
      ∧ Forall (λ ev, isWorkloadCall (call ev) = false) (trace s)
      ∧ r = afterConfigMap fault now (found req spec status)
              (configMapName req.2) opts (selectedPods opts cl) s.
Proof.
  intros r. subst r. destruct req as [ns name].
  unfold pass, Reconcile, Get_TracingConfig. rewrite invoke_bind. normg.
  oracle; normg.
  { left. intros ev Hin. apply list_elem_of_singleton in Hin as ->. done. }
  destruct (tracingConfigs cl !! (ns, name)) as [[spec status]|] eqn:Hpolicy; normg.
  2: { left. intros ev Hin. apply list_elem_of_singleton in Hin as ->. done. }
  unfold Status_Update. rewrite invoke_bind. normg.
  change {| ObjectNamespace := ns; ObjectName := name; Spec := spec;
            Status := {| Phase := "Pending";
                         Message := "Processing tracing configuration";
                         AppliedAt := AppliedAt status;
                         TargetPods := TargetPods status |} |}
    with (found (ns, name) spec status).
  oracle; normg; rewrite ?Hpolicy; normg.
  all: match goal with
       | |- context [listTargets fault ?n ?t ?s1] =>
           destruct (listTargets_cases n t s1)
             as [(added & Htr & Hno)
                |(opts & s' & added & Hopts & Hr & Htr & Hno & Htc & Hp & Hd)]
       end.
  1,3: left; rewrite Htr; normg; intros ev Hin Hw;
       repeat (apply elem_of_cons in Hin as [->|Hin]); try discriminate Hw;
       rewrite Forall_forall in Hno; by apply (Hno ev).
  all: right; exists spec, status, opts, s'; rewrite Hr, Htr; normg;
       (split; [done|]); (split; [exact Hopts|]); (split; [exact Hp|]);
       (split; [exact Hd|]); split; [|done];
       repeat (apply List.Forall_cons; [by cbn|]); done.
Qed.

(** C3, amended. In a pass whose write to the ConfigMap went through, the
    last call is the status update to [Applied], whether or not the
    deployments could be listed; its message counts the pods the selector
    matched at the start of the pass, and it is stored unless that update
    itself fails. When the deployments were listed, every listed
    deployment the loop modified has its update issued, whatever became
    of the updates of the others. *)
Theorem C3_applied_after_config_write (now : Time) (req : NamespacedName)
    (cl : Cluster) :
  let r := pass fault now req cl in
  (∃ ev, ev ∈ trace r.2 ∧ isConfigWrite (call ev) = true ∧ failure ev = None) →
  ∃ spec status opts,
    tracingConfigs cl !! req = Some (spec, status)
    ∧ listOptions (targetNamespaceOf (found req spec status)) spec = inr opts
    ∧ (∃ failure,
         last (trace r.2)
         = Some {| call := UpdateStatus req
                             (appliedStatus now (selectedPods opts cl));
                   failure := failure |}
         ∧ (failure = None → storedPhase (cluster r.2) req = Some "Applied"))
    ∧ ({| call := ListDeployments opts; failure := None |} ∈ trace r.2 →
       ∀ d, d ∈ listedDeployments opts cl →
         patched (configMapName req.2) (Containers (deploymentObj d))
         ≠ Containers (deploymentObj d) →
         ∃ ev, ev ∈ trace r.2
               ∧ call ev = UpdateDeployment
                   (setContainers
                      (patched (configMapName req.2) (Containers (deploymentObj d)))
                      d)).
Proof.
  intros r (ev & Hin & Hw & Hok). subst r.
  destruct (pass_cases now req cl)
    as [Hno|(spec & status & opts & s & Hpolicy & Hopts & Hp & Hd & Hcalls & Hr)].
  { by destruct (Hno ev Hin Hw). }
  exists spec, status, opts. split; [done|]. split; [done|].
  rewrite Hr.
  destruct (afterConfigMap_run fault now (found req spec status)
              (configMapName req.2) opts (selectedPods opts cl) s)
    as (listFailure & added & failure & Htr & Hadded & Hstored & Hcov).
  destruct req as [ns name]. cbn [found ObjectNamespace ObjectName fst snd] in *.
  split.
  - exists failure. split; [|exact Hstored].
    rewrite Htr. rewrite app_comm_cons, app_assoc. apply last_snoc.
  - intros Hlisted d Hd' Hne.
    assert (listFailure = None) as ->.
    { rewrite Htr in Hlisted.
      apply elem_of_app in Hlisted as [Hl|Hl].
      - rewrite Forall_forall in Hcalls. by specialize (Hcalls _ Hl).
      - apply elem_of_cons in Hl as [Hl|Hl]; [by injection Hl|].
        apply elem_of_app in Hl as [Hl|Hl].
        + rewrite Forall_forall in Hadded. by specialize (Hadded _ Hl).
        + apply list_elem_of_singleton in Hl. discriminate Hl. }
    destruct (Hcov eq_refl d) as (ev' & Hev' & Hcall).
    + unfold listedDeployments in *. by rewrite Hd.
    + by apply updated_iff_changed.
    + exists ev'. split; [|exact Hcall]. rewrite Htr.
      apply elem_of_app. right. apply elem_of_cons. right.
      apply elem_of_app. by left.
Qed.

End PassCases.

(** ** A pass in which no call fails *)

Section FaultFree.
Context `{LabelLibrary}.
Variable fault : list Event -> Call -> option error.

(** *** The patch loop when every update goes through *)

Lemma applyPatches_cons name d items m :
  applyPatches name (d :: items) m
  = applyPatches name items
      (if (patchContainers name (Containers (deploymentObj d))).2
       then <[deploymentKey d :=
                deploymentObj
                  (setContainers (patched name (Containers (deploymentObj d))) d)]> m
       else m).
Proof. reflexivity. Qed.

Lemma applyPatches_other name items m k :
  (∀ d, d ∈ items → deploymentKey d ≠ k) →
  applyPatches name items m !! k = m !! k.
Proof.
  revert m. induction items as [|d items IH]; intros m Hne; [done|].
  rewrite applyPatches_cons.
  rewrite IH by (intros d' Hd'; apply Hne; by right).
  destruct (patchContainers name (Containers (deploymentObj d))).2; [|done].
  apply lookup_insert_ne, Hne. by left.
Qed.

Lemma applyPatches_item name items m d :
  NoDup (deploymentKey <$> items) → d ∈ items →
  applyPatches name items m !! deploymentKey d
  = if (patchContainers name (Containers (deploymentObj d))).2
    then Some (patchObj name (deploymentObj d))
    else m !! deploymentKey d.
Proof.
  revert m. induction items as [|d' items IH]; intros m Hnd Hin.
  - by apply elem_of_nil in Hin.
  - rewrite applyPatches_cons.
    cbn [fmap list_fmap] in Hnd. apply NoDup_cons in Hnd as [Hfresh Hnd].
    apply elem_of_cons in Hin as [->|Hin].
    + rewrite applyPatches_other.
      * destruct (patchContainers name (Containers (deploymentObj d'))).2; [|done].
        by rewrite lookup_insert_eq.
      * intros d'' Hd'' Heq. apply Hfresh. rewrite <- Heq.
        by apply list_elem_of_fmap_2.
    + rewrite IH by done.
      destruct (patchContainers name (Containers (deploymentObj d))).2; [done|].
      destruct (patchContainers name (Containers (deploymentObj d'))).2; [|done].
      apply lookup_insert_ne. intros Heq. apply Hfresh. rewrite Heq.
      by apply list_elem_of_fmap_2.
Qed.

Lemma elem_of_listedDeployments opts cl d :
  d ∈ listedDeployments opts cl ↔
  deployments cl !! deploymentKey d = Some (deploymentObj d)
  ∧ selects opts (deploymentKey d) (deploymentLabels (deploymentObj d)) = true.
Proof.
  unfold listedDeployments. rewrite list_elem_of_In, in_map_iff. split.
  - intros ([k obj] & <- & Hin). apply filter_In in Hin as [Hin Hsel].
    split; [|done]. by apply elem_of_map_to_list, list_elem_of_In.
  - intros [Hlook Hsel]. exists (deploymentKey d, deploymentObj d).
    split; [by destruct d|]. apply filter_In. split; [|done].
    by apply list_elem_of_In, elem_of_map_to_list.
Qed.

Lemma NoDup_listedDeployments opts cl :
  NoDup (deploymentKey <$> listedDeployments opts cl).
Proof.
  unfold listedDeployments.
  change (map ?f ?l) with (f <$> l). rewrite <- list_fmap_compose.
  apply (NoDup_fmap_2_strong _).
  - intros [k1 o1] [k2 o2] H1 H2 Heq. cbn in Heq. subst k2. f_equal.
    apply list_elem_of_In, filter_In in H1 as [H1 _].
    apply list_elem_of_In, filter_In in H2 as [H2 _].
    apply list_elem_of_In, elem_of_map_to_list in H1.
    apply list_elem_of_In, elem_of_map_to_list in H2. congruence.
  - apply NoDup_ListNoDup, List.NoDup_filter, NoDup_ListNoDup, NoDup_map_to_list.
Qed.

Lemma not_updated_unchanged name containers :
  (patchContainers name containers).2 = false → patched name containers = containers.
Proof.
  rewrite patchContainers_updated, patched_map.
  induction containers as [|c cs IH]; [done|].
  cbn [existsb map]. intros Hupd. apply orb_false_iff in Hupd as [Hc Hcs].
  apply negb_false_iff in Hc. f_equal; [by apply patchContainer_fixed|by apply IH].
Qed.

Lemma patchObj_unchanged name obj :
  (patchContainers name (Containers obj)).2 = false → patchObj name obj = obj.
Proof.
  intros Hupd. unfold patchObj. destruct obj as [labels cs]. cbn in *. f_equal.
  by apply not_updated_unchanged.
Qed.

(** Once each update of the listed deployments went through, the store
    holds the patched form of every listed deployment and the others as
    they were. *)
Lemma applyPatches_listed name opts cl :
  applyPatches name (listedDeployments opts cl) (deployments cl)
  = patchSelected name opts (deployments cl).
Proof.
  apply map_eq. intros k. unfold patchSelected. rewrite map_lookup_imap.
  destruct (deployments cl !! k) as [obj|] eqn:Hk; cbn.
  - destruct (selects opts k (deploymentLabels obj)) eqn:Hsel.
    + pose proof (applyPatches_item name (listedDeployments opts cl) (deployments cl)
                    {| deploymentKey := k; deploymentObj := obj |}
                    (NoDup_listedDeployments opts cl)) as Hitem.
      cbn in Hitem. rewrite Hitem by (by apply elem_of_listedDeployments).
      destruct (patchContainers name (Containers obj)).2 eqn:Hupd; [done|].
      by rewrite Hk, patchObj_unchanged.
    + rewrite applyPatches_other; [done|].
      intros d Hd <-. apply elem_of_listedDeployments in Hd as [Hlook Hsel'].
      rewrite Hk in Hlook. injection Hlook as ->. congruence.
  - rewrite applyPatches_other; [done|].
    intros d Hd <-. apply elem_of_listedDeployments in Hd as [Hlook _]. congruence.
Qed.

Lemma patchSelected_idempotent name opts m :
  patchSelected name opts (patchSelected name opts m) = patchSelected name opts m.
Proof.
  apply map_eq. intros k. unfold patchSelected. rewrite !map_lookup_imap.
  destruct (m !! k) as [obj|]; [|done]. cbn.
  destruct (selects opts k (deploymentLabels obj)) eqn:Hsel; cbn; rewrite Hsel; [|done].
  unfold patchObj. cbn. by rewrite patched_idempotent.
Qed.

(** After such a pass no listed deployment needs a patch. *)
Lemma listed_after_patch name opts cl m d :
  deployments cl = patchSelected name opts m →
  d ∈ listedDeployments opts cl →
  (patchContainers name (Containers (deploymentObj d))).2 = false.
Proof.
  intros Hdeps Hd. apply elem_of_listedDeployments in Hd as [Hlook Hsel].
  rewrite Hdeps in Hlook. unfold patchSelected in Hlook.
  rewrite map_lookup_imap in Hlook.
  destruct (m !! deploymentKey d) as [obj|]; [|done]. cbn in Hlook.
  destruct (selects opts (deploymentKey d) (deploymentLabels obj)) eqn:Hsel0;
    injection Hlook as Hobj; rewrite <- Hobj in *.
  - cbn. apply patched_not_updated.
  - congruence.
Qed.

Lemma workloadWrites_none name items :
  (∀ d, d ∈ items → (patchContainers name (Containers (deploymentObj d))).2 = false) →
  workloadWrites name items = [].
Proof.
  induction items as [|d items IH]; intros Hall; [done|].
  cbn [workloadWrites flat_map]. rewrite (Hall d) by (by left). cbn.
  apply IH. intros d' Hd'. apply Hall. by right.
Qed.

Lemma patchDeployment_noFault name d s :
  is_Some (deployments (cluster s) !! deploymentKey d) →
  (patchDeployment noFault name d s).2
  = {| cluster := setDeployments (applyPatches name [d] (deployments (cluster s)))
                    (cluster s);
       trace := trace s
                ++ map (λ c, {| call := c; failure := None |})
                     (workloadWrites name [d]) |}.
Proof.
  intros [obj Hobj]. unfold patchDeployment, applyPatches, workloadWrites.
  cbn [foldl flat_map].
  destruct (patchContainers name (Containers (deploymentObj d))).2 eqn:Hupd.
  - unfold Update_Deployment. rewrite invoke_bind. unfold noFault.
    normg. cbn [setContainers deploymentKey deploymentObj].
    by rewrite Hobj.
  - normg. rewrite app_nil_r. by destruct s as [[] ?].
Qed.

Lemma workloadWrites_cons name d items :
  workloadWrites name (d :: items) = workloadWrites name [d] ++ workloadWrites name items.
Proof. unfold workloadWrites. cbn [flat_map]. by rewrite app_nil_r. Qed.

Lemma patchDeployments_noFault name items s :
  (∀ d, d ∈ items → is_Some (deployments (cluster s) !! deploymentKey d)) →
  (patchDeployments noFault name items s).2
  = {| cluster := setDeployments (applyPatches name items (deployments (cluster s)))
                    (cluster s);
       trace := trace s
                ++ map (λ c, {| call := c; failure := None |})
                     (workloadWrites name items) |}.
Proof.
  revert s. induction items as [|d items IH]; intros s Hkeys.
  - cbn. rewrite app_nil_r. by destruct s as [[] ?].
  - cbn [patchDeployments]. rewrite bind_run.
    assert (is_Some (deployments (cluster s) !! deploymentKey d)) as Hd
      by (apply Hkeys; by left).
    rewrite IH; rewrite patchDeployment_noFault by done; normg.
    + rewrite (workloadWrites_cons name d items), map_app, app_assoc. done.
    + intros d' Hd'.
      assert (is_Some (deployments (cluster s) !! deploymentKey d')) as Hd''
        by (apply Hkeys; by right).
      unfold applyPatches. cbn [foldl].
      destruct (patchContainers name (Containers (deploymentObj d))).2; [|done].
      apply lookup_insert_is_Some'. by right.
Qed.

Lemma invoke_noFault {A B : Type} (c : Call) serve (k : error + A -> M B) (s : State) :
  bind (invoke noFault c serve) k s
  = k (serve (cluster s)).1
      {| cluster := (serve (cluster s)).2;
         trace := trace s ++ [{| call := c;
                                 failure := errorOf (serve (cluster s)).1 |}] |}.
Proof. by rewrite invoke_bind. Qed.

(** The stage after the ConfigMap when no call fails: every listed
    deployment is patched in the store and the status ends [Applied]. *)
Lemma afterConfigMap_noFault now tc name opts names s spec status :
  tracingConfigs (cluster s) !! (ObjectNamespace tc, ObjectName tc)
  = Some (spec, status) →
  let r := afterConfigMap noFault now tc name opts names s in
  r.1 = ({| RequeueAfter := 5 * Minute |}, None)
  ∧ tracingConfigs (cluster r.2)
    = <[(ObjectNamespace tc, ObjectName tc) :=
          (spec, appliedStatus now names)]> (tracingConfigs (cluster s))
  ∧ configMaps (cluster r.2) = configMaps (cluster s)
  ∧ pods (cluster r.2) = pods (cluster s)
  ∧ deployments (cluster r.2) = patchSelected name opts (deployments (cluster s))
  ∧ calls (trace r.2)
    = calls (trace s) ++ ListDeployments opts
        :: workloadWrites name (listedDeployments opts (cluster s))
        ++ [UpdateStatus (ObjectNamespace tc, ObjectName tc) (appliedStatus now names)].
Proof.
  intros Hobj r. subst r.
  unfold afterConfigMap. rewrite bind_run.
  unfold updateDeployments, List_Deployments. rewrite invoke_noFault. normg.
  fold (listedDeployments opts (cluster s)).
  rewrite patchDeployments_noFault; normg.
  2: { intros d Hd. apply elem_of_listedDeployments in Hd as [-> _]. by eexists. }
  unfold applied, Status_Update. rewrite invoke_noFault. normg.
  rewrite Hobj. normg. rewrite applyPatches_listed.
  repeat split; try done.
  unfold calls. rewrite !map_app, map_map. cbn [call map app].
  by rewrite map_id, <- !app_assoc.
Qed.

Lemma workloadWrites_filter name items :
  List.filter isWorkloadWrite (workloadWrites name items) = workloadWrites name items
  ∧ List.filter isConfigWrite (workloadWrites name items) = [].
Proof.
  induction items as [|d items [IH1 IH2]]; [done|].
  rewrite workloadWrites_cons, !List.filter_app, IH1, IH2.
  unfold workloadWrites. cbn [flat_map].
  by destruct (patchContainers name (Containers (deploymentObj d))).2.
Qed.

(** A pass in which no call fails, on a policy with a valid selector: what
    it leaves in the store and the writes it issues. *)
Lemma pass_noFault now req cl spec status opts :
  tracingConfigs cl !! req = Some (spec, status) →
  listOptions (targetNamespaceOf (found req spec status)) spec = inr opts →
  let r := pass noFault now req cl in
  let key := (targetNamespaceOf (found req spec status), configMapName req.2) in
  r.1 = ({| RequeueAfter := 5 * Minute |}, None)
  ∧ tracingConfigs (cluster r.2)
    = <[req := (spec, appliedStatus now (selectedPods opts cl))]> (tracingConfigs cl)
  ∧ configMaps (cluster r.2) = <[key := configMapData spec]> (configMaps cl)
  ∧ pods (cluster r.2) = pods cl
  ∧ deployments (cluster r.2)
    = patchSelected (configMapName req.2) opts (deployments cl)
  ∧ List.filter isConfigWrite (calls (trace r.2))
    = [match configMaps cl !! key with
       | Some _ => UpdateConfigMap key (configMapData spec)
       | None => CreateConfigMap key (configMapData spec)
       end]
  ∧ List.filter isWorkloadWrite (calls (trace r.2))
    = workloadWrites (configMapName req.2) (listedDeployments opts cl).
Proof.
  intros Hpolicy Hopts r key. subst r key. destruct req as [ns name].
  unfold pass, Reconcile, Get_TracingConfig. rewrite invoke_noFault. normg.
  rewrite Hpolicy. normg.
  unfold Status_Update. rewrite invoke_noFault. normg. rewrite Hpolicy. normg.
  change (setPhase "Pending" "Processing tracing configuration"
            {| ObjectNamespace := ns; ObjectName := name; Spec := spec;
               Status := status |})
    with (found (ns, name) spec status).
  unfold listTargets. change (Spec (found (ns, name) spec status)) with spec.
  rewrite Hopts. unfold List_Pods. rewrite invoke_noFault. normg.
  fold (selectedPods opts cl).
  unfold ensureConfigMap, Get_ConfigMap. rewrite invoke_noFault. normg.
  change (ObjectName (found (ns, name) spec status)) with name.
  change (Spec (found (ns, name) spec status)) with spec.
  set (key := (targetNamespaceOf (found (ns, name) spec status), configMapName name)).
  destruct (configMaps cl !! key) as [data|] eqn:Hkey; normg.
  - unfold Update_ConfigMap. rewrite invoke_noFault. normg. rewrite Hkey. normg.
    match goal with
    | |- context [afterConfigMap noFault ?n ?t ?nm ?o ?names ?s1] =>
        destruct (afterConfigMap_noFault n t nm o names s1 spec (pendingStatus status))
          as (Hres & Htcs & Hcms & Hpods & Hdeps & Hcalls);
          [cbn; by rewrite lookup_insert_eq|]
    end.
    rewrite Hres, Htcs, Hcms, Hpods, Hdeps, Hcalls. normg.
    cbn [found ObjectNamespace ObjectName].
    rewrite insert_insert_eq.
    repeat split; try done.
    all: cbn [List.filter isConfigWrite isWorkloadWrite];
      rewrite List.filter_app;
      change (listedDeployments opts _) with (listedDeployments opts cl);
      destruct (workloadWrites_filter (configMapName name) (listedDeployments opts cl))
        as [Hw1 Hw2];
      rewrite ?Hw1, ?Hw2; cbn [List.filter isConfigWrite isWorkloadWrite app];
      by rewrite ?app_nil_r.
  - unfold IgnoreNotFound, notFound. cbn [IsNotFound].
    unfold Create_ConfigMap. rewrite invoke_noFault. normg. rewrite Hkey. normg.
    match goal with
    | |- context [afterConfigMap noFault ?n ?t ?nm ?o ?names ?s1] =>
        destruct (afterConfigMap_noFault n t nm o names s1 spec (pendingStatus status))
          as (Hres & Htcs & Hcms & Hpods & Hdeps & Hcalls);
          [cbn; by rewrite lookup_insert_eq|]
    end.
    rewrite Hres, Htcs, Hcms, Hpods, Hdeps, Hcalls. normg.
    cbn [found ObjectNamespace ObjectName].
    rewrite insert_insert_eq.
    repeat split; try done.
    all: cbn [List.filter isConfigWrite isWorkloadWrite];
      rewrite List.filter_app;
      change (listedDeployments opts _) with (listedDeployments opts cl);
      destruct (workloadWrites_filter (configMapName name) (listedDeployments opts cl))
        as [Hw1 Hw2];
      rewrite ?Hw1, ?Hw2; cbn [List.filter isConfigWrite isWorkloadWrite app];
      by rewrite ?app_nil_r.
Qed.

(** C1, amended. After a pass in which no call failed, on a policy with a
    valid selector, a second such pass issues no write to any workload and
    exactly one write to the ConfigMap: an update that carries the payload
    the ConfigMap already holds. It leaves the ConfigMaps, the pods and the
    deployments of the store as they were, and the phase is [Applied]
    after each of the two passes. *)
Theorem C1_second_pass_rewrites_config_only (now1 now2 : Time)
    (req : NamespacedName) (cl : Cluster) (spec : TracingConfigSpec)
    (status : TracingConfigStatus) (opts : ListOptions) :
  tracingConfigs cl !! req = Some (spec, status) →
  listOptions (targetNamespaceOf (found req spec status)) spec = inr opts →
  let r1 := pass noFault now1 req cl in
  let r2 := pass noFault now2 req (cluster r1.2) in
  let key := (targetNamespaceOf (found req spec status), configMapName req.2) in
  storedPhase (cluster r1.2) req = Some "Applied"
  ∧ List.filter isWorkloadWrite (calls (trace r2.2)) = []
  ∧ List.filter isConfigWrite (calls (trace r2.2))
    = [UpdateConfigMap key (configMapData spec)]
  ∧ configMaps (cluster r1.2) !! key = Some (configMapData spec)
  ∧ configMaps (cluster r2.2) = configMaps (cluster r1.2)
  ∧ pods (cluster r2.2) = pods (cluster r1.2)
  ∧ deployments (cluster r2.2) = deployments (cluster r1.2)
  ∧ storedPhase (cluster r2.2) req = Some "Applied".
Proof.
  intros Hpolicy Hopts r1 r2 key.
  destruct (pass_noFault now1 req cl spec status opts Hpolicy Hopts)
    as (_ & Htcs1 & Hcms1 & Hpods1 & Hdeps1 & _ & _).
  fold r1 in Htcs1, Hcms1, Hpods1, Hdeps1. fold key in Hcms1.
  assert (tracingConfigs (cluster r1.2) !! req
          = Some (spec, appliedStatus now1 (selectedPods opts cl))) as Hpolicy1.
  { by rewrite Htcs1, lookup_insert_eq. }
  destruct (pass_noFault now2 req (cluster r1.2) spec
              (appliedStatus now1 (selectedPods opts cl)) opts Hpolicy1 Hopts)
    as (_ & Htcs2 & Hcms2 & Hpods2 & Hdeps2 & Hcw2 & Hww2).
  fold r2 in Htcs2, Hcms2, Hpods2, Hdeps2, Hcw2, Hww2.
  change (targetNamespaceOf
            (found req spec (appliedStatus now1 (selectedPods opts cl))))
    with (targetNamespaceOf (found req spec status)) in Hcms2, Hcw2.
  fold key in Hcms2, Hcw2.
  assert (configMaps (cluster r1.2) !! key = Some (configMapData spec)) as Hkey.
  { by rewrite Hcms1, lookup_insert_eq. }
  split. { unfold storedPhase. by rewrite Hpolicy1. }
  split.
  { rewrite Hww2. apply workloadWrites_none. intros d Hd.
    eapply listed_after_patch; [exact Hdeps1|exact Hd]. }
  split. { by rewrite Hcw2, Hkey. }
  split; [done|].
  split. { rewrite Hcms2. by apply insert_id. }
  split; [done|].
  split. { by rewrite Hdeps2, Hdeps1, patchSelected_idempotent. }
  unfold storedPhase. by rewrite Htcs2, lookup_insert_eq.
Qed.

End FaultFree.

Lemma C1_second_pass_rewrites_config_only_witness :
  let r1 := pass noFault 1000 Scenario.req Scenario.cluster0 in
  let r2 := pass noFault 2000 Scenario.req (cluster r1.2) in
  let key := ("default", "policy-tracing-config") in
  storedPhase (cluster r1.2) Scenario.req = Some "Applied"
  ∧ List.filter isWorkloadWrite (calls (trace r2.2)) = []
  ∧ List.filter isConfigWrite (calls (trace r2.2))
    = [UpdateConfigMap key (configMapData Scenario.spec)]
  ∧ configMaps (cluster r1.2) !! key = Some (configMapData Scenario.spec)
  ∧ configMaps (cluster r2.2) = configMaps (cluster r1.2)
  ∧ pods (cluster r2.2) = pods (cluster r1.2)
  ∧ deployments (cluster r2.2) = deployments (cluster r1.2)
  ∧ storedPhase (cluster r2.2) Scenario.req = Some "Applied".
Proof.
  apply (C1_second_pass_rewrites_config_only 1000 2000 Scenario.req
           Scenario.cluster0 Scenario.spec Scenario.emptyStatus Scenario.listOpts).
  - reflexivity.
  - vm_compute. reflexivity.
Defined.

(** C1 as stated fails: the second pass of the scenario updates the
    ConfigMap again. *)
Lemma C1_counterexample :
  ¬ secondPassWritesNothing 1000 2000 Scenario.req Scenario.cluster0.
Proof.
  intros [Hnone _]. apply (f_equal (@length Call)) in Hnone.
  vm_compute in Hnone. discriminate Hnone.
Qed.

(** ** The scenario, run *)

(** C2 at the failing input: the read of the ConfigMap fails in transport.
    The pass stops and returns the error after four calls; it never writes
    a [Failed] status, so the stored phase stays [Pending]. *)
Lemma C2_config_read_failure_leaves_pending :
  let r := pass Scenario.failGetConfigMap 1000 Scenario.req Scenario.cluster0 in
  r.1 = ({| RequeueAfter := 0 |}, Some Scenario.boom)
  ∧ calls (trace r.2)
    = [GetTracingConfig Scenario.req;
       UpdateStatus Scenario.req (pendingStatus Scenario.emptyStatus);
       ListPods Scenario.listOpts;
       GetConfigMap ("default", "policy-tracing-config")]
  ∧ storedPhase (cluster r.2) Scenario.req = Some "Pending".
Proof.
  split; [vm_compute; reflexivity|].
  split; [vm_compute; reflexivity|].
  vm_compute. reflexivity.
Qed.

(** C3 as stated fails: with the list of the deployments failing, the
    ConfigMap is created and the phase still ends [Applied]. *)
Lemma C3_counterexample :
  ¬ appliedOnlyIfListed Scenario.failListDeployments 1000 Scenario.req
      Scenario.cluster0.
Proof.
  intros Hclaim.
  assert (Some Scenario.boom = None) as Habs; [|discriminate Habs].
  apply (Hclaim
           ltac:(exists {| call := CreateConfigMap ("default", "policy-tracing-config")
                                     (configMapData Scenario.spec);
                           failure := None |};
                 split; [apply (list_elem_of_lookup_2 _ 4); vm_compute; reflexivity
                        |by split])
           ltac:(vm_compute; reflexivity)
           {| call := ListDeployments Scenario.listOpts;
              failure := Some Scenario.boom |}
           Scenario.listOpts).
  - apply (list_elem_of_lookup_2 _ 5). vm_compute. reflexivity.
  - reflexivity.
Qed.

Lemma C3_applied_after_config_write_witness :
  let r := pass Scenario.failListDeployments 1000 Scenario.req Scenario.cluster0 in
  ∃ spec status opts,
    tracingConfigs Scenario.cluster0 !! Scenario.req = Some (spec, status)
    ∧ listOptions (targetNamespaceOf (found Scenario.req spec status)) spec = inr opts
    ∧ (∃ failure,
         last (trace r.2)
         = Some {| call := UpdateStatus Scenario.req
                             (appliedStatus 1000 (selectedPods opts Scenario.cluster0));
                   failure := failure |}
         ∧ (failure = None → storedPhase (cluster r.2) Scenario.req = Some "Applied"))
    ∧ ({| call := ListDeployments opts; failure := None |} ∈ trace r.2 →
       ∀ d, d ∈ listedDeployments opts Scenario.cluster0 →
         patched (configMapName Scenario.req.2) (Containers (deploymentObj d))
         ≠ Containers (deploymentObj d) →
         ∃ ev, ev ∈ trace r.2
               ∧ call ev = UpdateDeployment
                   (setContainers
                      (patched (configMapName Scenario.req.2)
                         (Containers (deploymentObj d)))
                      d)).
Proof.
  apply (C3_applied_after_config_write Scenario.failListDeployments 1000
           Scenario.req Scenario.cluster0).
  exists {| call := CreateConfigMap ("default", "policy-tracing-config")
                      (configMapData Scenario.spec);
            failure := None |}.
  split; [apply (list_elem_of_lookup_2 _ 4); vm_compute; reflexivity|by split].
Defined.

Lemma C6_invalid_selector_short_circuit_witness :
  let r := pass noFault 1000 Scenario.req Scenario.badCluster in
  let err := SimpleLabels.invalid "Near is not a valid label selector operator" in
  r.1 = ({| RequeueAfter := 0 |}, Some err)
  ∧ calls (trace r.2)
    = [GetTracingConfig Scenario.req;
       UpdateStatus Scenario.req (pendingStatus Scenario.emptyStatus);
       UpdateStatus Scenario.req
         (failedStatus ("Invalid label selector: " +:+ Error err)
            Scenario.emptyStatus)]
  ∧ configMaps (cluster r.2) = configMaps Scenario.badCluster
  ∧ deployments (cluster r.2) = deployments Scenario.badCluster
  ∧ (∀ ev, last (trace r.2) = Some ev → failure ev = None →
       storedPhase (cluster r.2) Scenario.req = Some "Failed").
Proof.
  apply (C6_invalid_selector_short_circuit noFault 1000 Scenario.req
           Scenario.badCluster Scenario.badSpec Scenario.emptyStatus
           {| SimpleLabels.MatchLabels := ∅;
              SimpleLabels.MatchExpressions :=
                [{| SimpleLabels.Key := "app";
                    SimpleLabels.OperatorName := "Near";
                    SimpleLabels.Values := [] |}] |}).
  - reflexivity.
  - reflexivity.
  - reflexivity.
  - reflexivity.
Defined.

Lemma C7_pending_before_mutation_witness :
  let tr := trace (pass noFault 1000 Scenario.req Scenario.cluster0).2 in
  Phase (pendingStatus Scenario.emptyStatus) = "Pending"
  ∧ Message (pendingStatus Scenario.emptyStatus) = "Processing tracing configuration"
  ∧ (∃ failure rest,
       tr = {| call := GetTracingConfig Scenario.req; failure := None |}
            :: {| call := UpdateStatus Scenario.req
                            (pendingStatus Scenario.emptyStatus);
                  failure := failure |}
            :: rest)
  ∧ ∀ i ev, tr !! i = Some ev → isMutation (call ev) = true →
      ∃ j ev', (j < i)%nat ∧ tr !! j = Some ev'
               ∧ call ev' = UpdateStatus Scenario.req
                              (pendingStatus Scenario.emptyStatus).
Proof.
  apply (C7_pending_before_mutation noFault 1000 Scenario.req Scenario.cluster0
           Scenario.spec Scenario.emptyStatus).
  - reflexivity.
  - reflexivity.
Defined.

(** ** The fields the reconciler never reads *)

Section Flags.
Context `{LabelLibrary}.
Variable fault : list Event -> Call -> option error.

Lemma withFlags_same enabled headers spec1 spec2 :
  sameButFlags spec1 spec2 →
  withFlags enabled headers spec1 = withFlags enabled headers spec2.
Proof.
  intros (? & ? & ? & ? & ? & ? & ? & ? & ?). unfold withFlags. congruence.
Qed.

Lemma ignores_ret {A : Type} (a : A) : ignoresStoredSpecs (ret a).
Proof. intros s1 s2 Htr Hcl. done. Qed.

Lemma ignores_bind {A B : Type} (m : M A) (k : A -> M B) :
  ignoresStoredSpecs m → (∀ a, ignoresStoredSpecs (k a)) →
  ignoresStoredSpecs (bind m k).
Proof.
  intros Hm Hk s1 s2 Htr Hcl. rewrite !bind_run.
  destruct (Hm s1 s2 Htr Hcl) as (Ha & Htr' & Hcl'). rewrite Ha.
  by apply Hk.
Qed.

Lemma ignores_invoke {A : Type} (c : Call) (serve : Cluster -> (error + A) * Cluster) :
  (∀ cl1 cl2, sameButSpecs cl1 cl2 →
     (serve cl1).1 = (serve cl2).1 ∧ sameButSpecs (serve cl1).2 (serve cl2).2) →
  ignoresStoredSpecs (invoke fault c serve).
Proof.
  intros Hserve s1 s2 Htr Hcl. unfold invoke. rewrite Htr.
  destruct (fault (trace s2) c) as [err|]; cbn [fst snd cluster trace].
  - done.
  - destruct (Hserve _ _ Hcl) as [Hr Hcl']. by rewrite Hr.
Qed.

Lemma ignores_Status_Update tc : ignoresStoredSpecs (Status_Update fault tc).
Proof.
  apply ignores_invoke. intros cl1 cl2 (Htcs & Hcms & Hpods & Hdeps).
  pose proof (f_equal (λ m, m !! (ObjectNamespace tc, ObjectName tc)) Htcs) as Hk.
  cbn in Hk. rewrite !lookup_fmap in Hk.
  destruct (tracingConfigs cl1 !! (ObjectNamespace tc, ObjectName tc)) as [o1|],
           (tracingConfigs cl2 !! (ObjectNamespace tc, ObjectName tc)) as [o2|];
    try discriminate Hk; cbn; [|done].
  split; [done|]. unfold sameButSpecs. cbn. by rewrite !fmap_insert, Htcs.
Qed.

Lemma ignores_List_Pods opts : ignoresStoredSpecs (List_Pods fault opts).
Proof.
  apply ignores_invoke. intros [tcs1 cms1 ps1 ds1] [tcs2 cms2 ps2 ds2] Hcl.
  destruct Hcl as (? & ? & Hpods & ?). cbn in *. by subst.
Qed.

Lemma ignores_Get_ConfigMap key : ignoresStoredSpecs (Get_ConfigMap fault key).
Proof.
  apply ignores_invoke. intros [tcs1 cms1 ps1 ds1] [tcs2 cms2 ps2 ds2] Hcl.
  destruct Hcl as (? & Hcms & ? & ?). cbn in *. subst.
  by destruct (cms2 !! key).
Qed.

Lemma ignores_Create_ConfigMap key data :
  ignoresStoredSpecs (Create_ConfigMap fault key data).
Proof.
  apply ignores_invoke. intros [tcs1 cms1 ps1 ds1] [tcs2 cms2 ps2 ds2] Hcl.
  destruct Hcl as (? & Hcms & ? & ?). cbn in *. subst.
  by destruct (cms2 !! key).
Qed.

Lemma ignores_Update_ConfigMap key data :
  ignoresStoredSpecs (Update_ConfigMap fault key data).
Proof.
  apply ignores_invoke. intros [tcs1 cms1 ps1 ds1] [tcs2 cms2 ps2 ds2] Hcl.
  destruct Hcl as (? & Hcms & ? & ?). cbn in *. subst.
  by destruct (cms2 !! key).
Qed.

Lemma ignores_List_Deployments opts :
  ignoresStoredSpecs (List_Deployments fault opts).
Proof.
  apply ignores_invoke. intros [tcs1 cms1 ps1 ds1] [tcs2 cms2 ps2 ds2] Hcl.
  destruct Hcl as (? & ? & ? & Hdeps). cbn in *. by subst.
Qed.

Lemma ignores_Update_Deployment d :
  ignoresStoredSpecs (Update_Deployment fault d).
Proof.
  apply ignores_invoke. intros [tcs1 cms1 ps1 ds1] [tcs2 cms2 ps2 ds2] Hcl.
  destruct Hcl as (? & ? & ? & Hdeps). cbn in *. subst.
  by destruct (ds2 !! deploymentKey d).
Qed.

Ltac ignores :=
  repeat first
    [ apply ignores_ret
    | apply ignores_Status_Update
    | apply ignores_List_Pods
    | apply ignores_Get_ConfigMap
    | apply ignores_Create_ConfigMap
    | apply ignores_Update_ConfigMap
    | apply ignores_List_Deployments
    | apply ignores_Update_Deployment
    | apply ignores_bind; [|intros ?]
    | match goal with
      | |- ignoresStoredSpecs (match ?x with _ => _ end) => destruct x
      | |- ignoresStoredSpecs (if ?x then _ else _) => destruct x
      end ].

Lemma ignores_patchDeployments name items :
  ignoresStoredSpecs (patchDeployments fault name items).
Proof.
  induction items as [|d items IH]; cbn [patchDeployments]; [apply ignores_ret|].
  apply ignores_bind; [|by intros _]. unfold patchDeployment. ignores.
Qed.

Lemma ignores_listTargets now tc : ignoresStoredSpecs (listTargets fault now tc).
Proof.
  unfold listTargets, ensureConfigMap, afterConfigMap, updateDeployments, applied,
    failed.
  ignores; apply ignores_patchDeployments.
Qed.

(** The pass reads of the in-memory policy nothing of [Enabled] and
    [Headers]. *)
Lemma listTargets_withFlags enabled headers now tc :
  listTargets fault now (withFlagsOf enabled headers tc) = listTargets fault now tc.
Proof. reflexivity. Qed.

Lemma Status_Update_withFlags enabled headers tc :
  Status_Update fault (withFlagsOf enabled headers tc) = Status_Update fault tc.
Proof. reflexivity. Qed.

(** C10. Two policies whose specs differ at most in [Enabled] and
    [Headers] are reconciled alike: under the same failures the two passes
    return the same result and make the same calls, with the same
    ConfigMap payloads, the same deployment updates and the same statuses,
    and they leave the same ConfigMaps, pods, deployments and policy
    statuses in the store. In particular a policy with [Enabled] false is
    reconciled like an enabled one. *)
Theorem C10_flags_not_read (now : Time) (req : NamespacedName) (cl : Cluster)
    (spec1 spec2 : TracingConfigSpec) (status : TracingConfigStatus) :
  sameButFlags spec1 spec2 →
  tracingConfigs cl !! req = Some (spec1, status) →
  let r1 := pass fault now req cl in
  let r2 := pass fault now req
              (setTracingConfigs (<[req := (spec2, status)]> (tracingConfigs cl)) cl) in
  r1.1 = r2.1
  ∧ trace r1.2 = trace r2.2
  ∧ sameButSpecs (cluster r1.2) (cluster r2.2).
Proof.
  intros Hsame Hpolicy r1 r2. subst r1 r2. destruct req as [ns name].
  assert (sameButSpecs cl
            (setTracingConfigs (<[(ns, name) := (spec2, status)]> (tracingConfigs cl)) cl))
    as Hcl.
  { unfold sameButSpecs. cbn. repeat split; try done.
    rewrite fmap_insert. cbn. symmetry. apply insert_id.
    by rewrite lookup_fmap, Hpolicy. }
  unfold pass, Reconcile, Get_TracingConfig. rewrite !invoke_bind. normg.
  destruct (fault [] (GetTracingConfig (ns, name))) as [err|]; [done|].
  rewrite Hpolicy, lookup_insert_eq. normg.
  set (tc1 := setPhase "Pending" "Processing tracing configuration"
                {| ObjectNamespace := ns; ObjectName := name; Spec := spec1;
                   Status := status |}).
  set (tc2 := setPhase "Pending" "Processing tracing configuration"
                {| ObjectNamespace := ns; ObjectName := name; Spec := spec2;
                   Status := status |}).
  assert (withFlagsOf false ∅ tc2 = withFlagsOf false ∅ tc1) as Htc.
  { unfold withFlagsOf, tc1, tc2. cbn. f_equal. symmetry.
    by apply withFlags_same. }
  rewrite <- (Status_Update_withFlags false ∅ tc2).
  rewrite <- (listTargets_withFlags false ∅ now tc2).
  rewrite Htc, Status_Update_withFlags, listTargets_withFlags.
  apply (ignores_bind (Status_Update fault tc1) (λ _, listTargets fault now tc1)).
  - apply ignores_Status_Update.
  - intros _. apply ignores_listTargets.
  - done.
  - done.
Qed.

End Flags.

Lemma C10_flags_not_read_witness :
  let r1 := pass noFault 1000 Scenario.req Scenario.cluster0 in
  let r2 := pass noFault 1000 Scenario.req
              (setTracingConfigs
                 (<[Scenario.req := (Scenario.disabledSpec, Scenario.emptyStatus)]>
                    (tracingConfigs Scenario.cluster0))
                 Scenario.cluster0) in
  r1.1 = r2.1
  ∧ trace r1.2 = trace r2.2
  ∧ sameButSpecs (cluster r1.2) (cluster r2.2).
Proof.
  apply (C10_flags_not_read noFault 1000 Scenario.req Scenario.cluster0
           Scenario.spec Scenario.disabledSpec Scenario.emptyStatus).
  - by repeat split.
  - reflexivity.
Defined.
